(** * trails: a shallow embedding of [trails/core.py]

    The embedding comes first: Python values, the [Call] named tuple, the
    [DataCache] class, the [Step] class and [apply_with_kwargs], as state
    transformers over the cache and its directory.  The external
    collaborators are modelled by their documented behaviour on the values
    that the program hands to them: [dask.threaded.get] as an evaluator of
    the graph, [joblib.dump]/[joblib.load] as writes and reads of files,
    the builtins [dict] and tuple unpacking; [joblib.hash], the call of a
    target function and [str] are parameters.  Then come the vocabulary of
    the statements, a concrete pipeline, the properties, and the
    properties evaluated at the pipeline. *)

From stdpp Require Import base option list strings countable gmap fin_maps pretty.
From Stdlib Require Import ZArith Lia.

Set Default Proof Using "Type".
Local Open Scope string_scope.
Local Open Scope list_scope.

(** ** Python objects *)

(** The constants of a code object ([__code__.co_consts]). *)
Inductive const : Type :=
  | KNone
  | KInt (n : Z)
  | KStr (s : string).

(** A Python function object.  [fid] is the object's identity: two
    functions may share [__name__] and still be different objects.
    [co_code] is the byte string [__code__.co_code]. *)
Record function : Type := Function {
  fid : nat;
  f_name : string;
  co_code : string;
  co_consts : list const
}.

(** The values that flow through a pipeline.  [VCall] is an instance of
    the named tuple [Call(func, args, kwargs)] (a Trail); its [kwargs] is
    a [hashabledict].  [VDict] is a mapping object with string keys: a
    [hashabledict], or the plain [dict] of keyword arguments inside the
    tuple that [hash()] digests.  All values are hashable, as the
    arguments of a Trail have to be.  [VStep] is a [Step] object: [sid] is its identity, followed by its
    [target], the three fields of its [trail], and its [args] and
    [kwargs]. *)
#[warnings="-register-all"]
Inductive value : Type :=
  | VNone
  | VInt (n : Z)
  | VStr (s : string)
  | VBytes (b : string)
  | VTuple (xs : list value)
  | VDict (items : list (string * value))
  | VCall (func : string) (args : list value) (kwargs : list (string * value))
  | VStep (sid : nat) (target : function)
          (tfunc : string) (targs : list value) (tkwargs : list (string * value))
          (args : list value) (kwargs : list (string * value)).

(** Induction over [value] that reaches the values nested in the lists. *)
Section value_induction.
Variable P : value → Prop.
Hypothesis HNone : P VNone.
Hypothesis HInt : ∀ n, P (VInt n).
Hypothesis HStr : ∀ s, P (VStr s).
Hypothesis HBytes : ∀ b, P (VBytes b).
Hypothesis HTuple : ∀ xs, Forall P xs → P (VTuple xs).
Hypothesis HDict : ∀ kvs, Forall (λ kv, P kv.2) kvs → P (VDict kvs).
Hypothesis HCall : ∀ f a k,
  Forall P a → Forall (λ kv, P kv.2) k → P (VCall f a k).
Hypothesis HStep : ∀ i t f a k a' k',
  Forall P a → Forall (λ kv, P kv.2) k →
  Forall P a' → Forall (λ kv, P kv.2) k' → P (VStep i t f a k a' k').

Fixpoint value_nested_ind (v : value) : P v :=
  let fix on_list (xs : list value) : Forall P xs :=
    match xs with
    | [] => Forall_nil_2 _
    | x :: xs' => Forall_cons_2 _ _ _ (value_nested_ind x) (on_list xs')
    end in
  let fix on_items (kvs : list (string * value)) : Forall (λ kv, P kv.2) kvs :=
    match kvs with
    | [] => Forall_nil_2 _
    | (k, x) :: kvs' =>
        Forall_cons_2 (λ kv, P kv.2) (k, x) kvs' (value_nested_ind x) (on_items kvs')
    end in
  match v with
  | VNone => HNone
  | VInt n => HInt n
  | VStr s => HStr s
  | VBytes b => HBytes b
  | VTuple xs => HTuple xs (on_list xs)
  | VDict kvs => HDict kvs (on_items kvs)
  | VCall f a k => HCall f a k (on_list a) (on_items k)
  | VStep i t f a k a' k' =>
      HStep i t f a k a' k' (on_list a) (on_items k) (on_list a') (on_items k')
  end.

End value_induction.

(** *** Equality and countability

    Trails are dictionary keys, so [value] has to be a countable type with
    decidable equality.  Both come from an injection into stdpp's generic
    trees. *)

Definition const_to_sum (c : const) : unit + (Z + string) :=
  match c with
  | KNone => inl ()
  | KInt n => inr (inl n)
  | KStr s => inr (inr s)
  end.

Definition const_of_sum (x : unit + (Z + string)) : const :=
  match x with
  | inl _ => KNone
  | inr (inl n) => KInt n
  | inr (inr s) => KStr s
  end.

#[global] Instance const_eq_dec : EqDecision const.
Proof. solve_decision. Defined.

#[global] Instance const_countable : Countable const.
Proof.
  refine (inj_countable' const_to_sum const_of_sum _).
  by intros [].
Defined.

#[global] Instance function_eq_dec : EqDecision function.
Proof. solve_decision. Defined.

#[global] Instance function_countable : Countable function.
Proof.
  refine (inj_countable'
    (λ f, (fid f, f_name f, co_code f, co_consts f))
    (λ t, Function t.1.1.1 t.1.1.2 t.1.2 t.2) _).
  by intros [].
Defined.

Inductive leaf : Type :=
  | LZ (n : Z)
  | LS (s : string)
  | LN (n : nat)
  | LF (f : function).

#[global] Instance leaf_eq_dec : EqDecision leaf.
Proof. solve_decision. Defined.

#[global] Instance leaf_countable : Countable leaf.
Proof.
  refine (inj_countable'
    (λ l, match l with
          | LZ n => inl n
          | LS s => inr (inl s)
          | LN n => inr (inr (inl n))
          | LF f => inr (inr (inr f))
          end)
    (λ x, match x with
          | inl n => LZ n
          | inr (inl s) => LS s
          | inr (inr (inl n)) => LN n
          | inr (inr (inr f)) => LF f
          end) _).
  by intros [].
Defined.

Fixpoint value_to_tree (v : value) : gen_tree leaf :=
  let items := map (λ kv : string * value,
                 let '(k, x) := kv in GenNode 0 [GenLeaf (LS k); value_to_tree x]) in
  match v with
  | VNone => GenNode 0 []
  | VInt n => GenLeaf (LZ n)
  | VStr s => GenLeaf (LS s)
  | VBytes b => GenNode 1 [GenLeaf (LS b)]
  | VTuple xs => GenNode 2 (map value_to_tree xs)
  | VDict kvs => GenNode 3 (items kvs)
  | VCall f a k =>
      GenNode 4 [GenLeaf (LS f); GenNode 2 (map value_to_tree a); GenNode 3 (items k)]
  | VStep i t f a k a' k' =>
      GenNode 5 [GenLeaf (LN i); GenLeaf (LF t); GenLeaf (LS f);
                 GenNode 2 (map value_to_tree a); GenNode 3 (items k);
                 GenNode 2 (map value_to_tree a'); GenNode 3 (items k')]
  end.

Fixpoint tree_to_value (t : gen_tree leaf) : value :=
  let values := map tree_to_value in
  let items := map (λ t : gen_tree leaf,
                 match t with
                 | GenNode _ [GenLeaf (LS k); x] => (k, tree_to_value x)
                 | _ => ("", VNone)
                 end) in
  match t with
  | GenLeaf (LZ n) => VInt n
  | GenLeaf (LS s) => VStr s
  | GenNode 1 [GenLeaf (LS b)] => VBytes b
  | GenNode 2 ts => VTuple (values ts)
  | GenNode 3 ts => VDict (items ts)
  | GenNode 4 [GenLeaf (LS f); GenNode _ a; GenNode _ k] =>
      VCall f (values a) (items k)
  | GenNode 5 [GenLeaf (LN i); GenLeaf (LF t); GenLeaf (LS f);
               GenNode _ a; GenNode _ k; GenNode _ a'; GenNode _ k'] =>
      VStep i t f (values a) (items k) (values a') (items k')
  | _ => VNone
  end.

Lemma tree_to_value_to_tree (v : value) : tree_to_value (value_to_tree v) = v.
Proof.
  assert (Hvals : ∀ xs : list value,
    Forall (λ x, tree_to_value (value_to_tree x) = x) xs →
    map tree_to_value (map value_to_tree xs) = xs).
  { induction 1 as [|x xs Hx _ IH]; simpl; [done | by rewrite Hx, IH]. }
  assert (Hitems : ∀ kvs : list (string * value),
    Forall (λ kv, tree_to_value (value_to_tree kv.2) = kv.2) kvs →
    map (λ t : gen_tree leaf,
           match t with
           | GenNode _ [GenLeaf (LS k); x] => (k, tree_to_value x)
           | _ => ("", VNone)
           end)
        (map (λ kv : string * value,
           let '(k, x) := kv in GenNode 0 [GenLeaf (LS k); value_to_tree x]) kvs)
    = kvs).
  { induction 1 as [|[k x] kvs Hx _ IH]; simpl in *; [done | by rewrite Hx, IH]. }
  induction v using value_nested_ind; simpl; try done.
  - by rewrite Hvals.
  - by rewrite Hitems.
  - by rewrite Hvals, Hitems.
  - by rewrite !Hvals, !Hitems.
Qed.

#[global] Instance value_to_tree_inj : Inj (=) (=) value_to_tree.
Proof.
  intros x y Heq.
  by rewrite <-(tree_to_value_to_tree x), <-(tree_to_value_to_tree y), Heq.
Qed.

#[global] Instance value_eq_dec : EqDecision value :=
  λ x y, match decide (value_to_tree x = value_to_tree y) with
         | left H => left (value_to_tree_inj x y H)
         | right H => right (λ Heq, H (f_equal value_to_tree Heq))
         end.

#[global] Instance value_countable : Countable value :=
  inj_countable' value_to_tree tree_to_value tree_to_value_to_tree.

(** ** [Call = namedtuple('Call', ['func', 'args', 'kwargs'])] *)

Record Call : Type := mkCall {
  func : string;
  args : list value;
  kwargs : list (string * value)
}.

Definition Call_value (c : Call) : value := VCall (func c) (args c) (kwargs c).

(** [isinstance(v, Call)], returning the instance. *)
Definition isinstance_Call (v : value) : option Call :=
  match v with
  | VCall f a k => Some (mkCall f a k)
  | _ => None
  end.

#[global] Instance Call_eq_dec : EqDecision Call.
Proof. solve_decision. Defined.

#[global] Instance Call_countable : Countable Call.
Proof.
  refine (inj_countable' Call_value
    (λ v, default (mkCall "" [] []) (isinstance_Call v)) _).
  by intros [].
Defined.

(** [c + t] for a named tuple [c] and a tuple [t]: a plain tuple. *)
Definition Call_add (c : Call) (t : list value) : value :=
  VTuple ([VStr (func c); VTuple (args c); VDict (kwargs c)] ++ t).

(** Modelled from the spec: [hashabledict] of [trails/utils.py], which is
    imported by [core.py] and is not among the sources.  The spec asks for
    an order-insensitive hashable mapping: [{a:1,b:2}] and [{b:2,a:1}]
    give equal Trails.  The mapping is kept as its association list in key
    order, so that equal mappings are equal lists; a later binding of a key
    replaces an earlier one, as in [dict]. *)
Fixpoint hashabledict_set (k : string) (v : value)
    (d : list (string * value)) : list (string * value) :=
  match d with
  | [] => [(k, v)]
  | (k', v') :: d' =>
      match String.compare k k' with
      | Lt => (k, v) :: d
      | Eq => (k, v) :: d'
      | Gt => (k', v') :: hashabledict_set k v d'
      end
  end.

Definition hashabledict (kw : list (string * value)) : list (string * value) :=
  fold_left (λ d kv, hashabledict_set kv.1 kv.2 d) kw [].

(** ** Exceptions and results *)

Inductive exn : Type :=
  | KeyError
  | ValueError
  | TypeError
  | AttributeError
  | FileNotFoundError
  | UnicodeDecodeError
  | UnpicklingError
  | RuntimeError
  | RecursionError
  | TargetError (msg : string).

Inductive result (A : Type) : Type :=
  | Ok (a : A)
  | Raise (e : exn).
Arguments Ok {A} a.
Arguments Raise {A} e.

#[global] Instance exn_eq_dec : EqDecision exn.
Proof. solve_decision. Defined.

#[global] Instance result_eq_dec {A} `{EqDecision A} : EqDecision (result A).
Proof. solve_decision. Defined.

#[global] Instance result_ret : MRet result := λ A a, Ok a.
#[global] Instance result_bind : MBind result := λ A B f m,
  match m with
  | Ok a => f a
  | Raise e => Raise e
  end.

(** ** The objects of [core.py] *)

(** A [Step] object.  [sid] stands for the object's identity; the other
    fields are the attributes set by [Step.__init__] ([self.dc] is the one
    [DataCache] of the model). [step_args] and [step_kwargs] are
    [self.args] and [self.kwargs]. *)
Record Step : Type := mkStep {
  sid : nat;
  trail : Call;
  target : function;
  step_args : list value;
  step_kwargs : list (string * value)
}.

#[global] Instance Step_eq_dec : EqDecision Step.
Proof. solve_decision. Defined.

Definition Step_value (s : Step) : value :=
  VStep (sid s) (target s) (func (trail s)) (args (trail s)) (kwargs (trail s))
        (step_args s) (step_kwargs s).

(** [isinstance(v, Step)], returning the instance. *)
Definition isinstance_Step (v : value) : option Step :=
  match v with
  | VStep i t f a k a' k' => Some (mkStep i (mkCall f a k) t a' k')
  | _ => None
  end.

(** The entries that [core.py] puts into the dask graph:
    [(apply_with_kwargs, target, list_of_args, list_of_kwargs)] and
    [(self.dc.load, name)]. *)
Inductive task : Type :=
  | Task_apply_with_kwargs (function : function) (args : list value) (kwargs : list value)
  | Task_load (name : value).

#[global] Instance task_eq_dec : EqDecision task.
Proof. solve_decision. Defined.

(** A file of the cache directory: written by [joblib.dump] or as text. *)
Inductive file : Type :=
  | Pickle (v : value)
  | Text (s : string).

#[global] Instance file_eq_dec : EqDecision file.
Proof. solve_decision. Defined.

(** An element of [DataCache.observed]: [(name, args, kwargs, result)]. *)
Definition observation : Type :=
  (string * list value * list (string * value) * value)%type.

(** Ghost state: the cache operations performed so far, in order.  No
    operation reads it; it makes "which operations did this call perform"
    a property of the state. *)
Inductive event : Type :=
  | Recomputed (t : Call)
  | Got (t : Call)
  | Stored (name : value) (v : value)
  | StoredHash (name : value) (h : string).

#[global] Instance event_eq_dec : EqDecision event.
Proof. solve_decision. Defined.

(** The state of a [DataCache] together with the files below its
    directory ([files], keyed by path).  [next_sid] is the identity that
    the next [Step] object receives. *)
Record DataCache : Type := mkDataCache {
  directory : string;
  graph : gmap Call task;
  step_graph : gmap Call Step;
  observed : list observation;
  files : gmap string file;
  next_sid : nat;
  journal : list event
}.

Definition set_graph (f : gmap Call task → gmap Call task) (dc : DataCache) : DataCache :=
  mkDataCache (directory dc) (f (graph dc)) (step_graph dc) (observed dc)
              (files dc) (next_sid dc) (journal dc).

Definition set_step_graph (f : gmap Call Step → gmap Call Step) (dc : DataCache) : DataCache :=
  mkDataCache (directory dc) (graph dc) (f (step_graph dc)) (observed dc)
              (files dc) (next_sid dc) (journal dc).

Definition set_observed (f : list observation → list observation) (dc : DataCache) : DataCache :=
  mkDataCache (directory dc) (graph dc) (step_graph dc) (f (observed dc))
              (files dc) (next_sid dc) (journal dc).

Definition set_files (f : gmap string file → gmap string file) (dc : DataCache) : DataCache :=
  mkDataCache (directory dc) (graph dc) (step_graph dc) (observed dc)
              (f (files dc)) (next_sid dc) (journal dc).

Definition set_next_sid (f : nat → nat) (dc : DataCache) : DataCache :=
  mkDataCache (directory dc) (graph dc) (step_graph dc) (observed dc)
              (files dc) (f (next_sid dc)) (journal dc).

Definition log (e : event) (dc : DataCache) : DataCache :=
  mkDataCache (directory dc) (graph dc) (step_graph dc) (observed dc)
              (files dc) (next_sid dc) (journal dc ++ [e]).

(** Methods are state transformers that keep the state when they raise. *)
Definition M (A : Type) : Type := DataCache → result A * DataCache.

#[global] Instance M_ret : MRet M := λ A a dc, (Ok a, dc).
#[global] Instance M_bind : MBind M := λ A B f m dc,
  match m dc with
  | (Ok a, dc') => f a dc'
  | (Raise e, dc') => (Raise e, dc')
  end.

Definition lift {A} (r : result A) : M A := λ dc, (r, dc).
Definition modify (f : DataCache → DataCache) : M unit := λ dc, (Ok (), f dc).
Definition read {A} (f : DataCache → A) : M A := λ dc, (Ok (f dc), dc).

(** ** Builtins *)

Definition newline : string := String (Ascii.ascii_of_nat 10) "".

(** [os.path.join(a, b)] for two components (POSIX). *)
Fixpoint ends_with_slash (s : string) : bool :=
  match s with
  | "" => false
  | String _ "" => bool_decide (s = "/")
  | String _ s' => ends_with_slash s'
  end.

Definition os_path_join (a b : string) : string :=
  if String.prefix "/" b then b
  else if bool_decide (a = "") || ends_with_slash a then a +:+ b
  else a +:+ "/" +:+ b.

(** Iterating over a value: the characters of a [str], the integers of a
    [bytes], the elements of a tuple or named tuple, the keys of a mapping;
    [TypeError] for objects that are not iterable. *)
Definition py_iter (v : value) : result (list value) :=
  match v with
  | VStr s => Ok (map (λ c, VStr (String c "")) (String.list_ascii_of_string s))
  | VBytes b => Ok (map (λ c, VInt (Z.of_nat (Ascii.nat_of_ascii c))) (String.list_ascii_of_string b))
  | VTuple xs => Ok xs
  | VDict kvs => Ok (map (λ kv, VStr kv.1) kvs)
  | VCall f a k => Ok [VStr f; VTuple a; VDict k]
  | VNone | VInt _ | VStep _ _ _ _ _ _ _ => Raise TypeError
  end.

(** The unpacking assignment [k, v = item]: [ValueError] unless [item]
    has exactly two elements. *)
Definition unpack_pair (item : value) : result (value * value) :=
  xs ← py_iter item;
  match xs with
  | [k; v] => Ok (k, v)
  | _ => Raise ValueError
  end.

(** [d[k] = v] on the items of a [dict]. *)
Fixpoint dict_setitem (k v : value) (d : list (value * value)) : list (value * value) :=
  match d with
  | [] => [(k, v)]
  | (k', v') :: d' =>
      if decide (k = k') then (k', v) :: d' else (k', v') :: dict_setitem k v d'
  end.

(** [dict(items)] for a list [items]: every element has to unpack into a
    key and a value. *)
Fixpoint py_dict_from (d : list (value * value)) (items : list value) :
    result (list (value * value)) :=
  match items with
  | [] => Ok d
  | item :: items' =>
      kv ← unpack_pair item;
      py_dict_from (dict_setitem kv.1 kv.2 d) items'
  end.

Definition py_dict (items : list value) : result (list (value * value)) :=
  py_dict_from [] items.

(** The keyword arguments of a call [f( **d)]: the keys have to be
    strings. *)
Definition keywords (d : list (value * value)) : result (list (string * value)) :=
  mapM (λ kv : value * value,
          match kv.1 with
          | VStr k => Ok (k, kv.2)
          | _ => Raise TypeError
          end) d.

Definition const_value (c : const) : value :=
  match c with
  | KNone => VNone
  | KInt n => VInt n
  | KStr s => VStr s
  end.

(** Nesting depth of a value. *)
Fixpoint value_depth (v : value) : nat :=
  let items := map (λ kv : string * value, let '(_, x) := kv in value_depth x) in
  match v with
  | VNone | VInt _ | VStr _ | VBytes _ => 0
  | VTuple xs => S (list_max (map value_depth xs))
  | VDict kvs => S (list_max (items kvs))
  | VCall _ a k => S (list_max (map value_depth a) `max` list_max (items k))
  | VStep _ _ _ a k a' k' =>
      S ((list_max (map value_depth a) `max` list_max (items k))
         `max` (list_max (map value_depth a') `max` list_max (items k')))
  end.

(** A generator that has run to its end: the objects it yielded and the
    exception that ended it, if one did. *)
Record generator (A : Type) : Type := mkGenerator {
  yields : list A;
  raised : option exn
}.
Arguments mkGenerator {A} yields raised.
Arguments yields {A} g.
Arguments raised {A} g.

Definition gen_yield {A} (a : A) (g : generator A) : generator A :=
  mkGenerator (a :: yields g) (raised g).

(** ** The collaborators that are parameters of the development

    [joblib_hash] is [joblib.hash]; [py_call f args kw] is the outcome of
    the Python call [f( *args, **kw)]; [py_str] is the builtin [str]. *)
Class Runtime : Type := {
  joblib_hash : value → string;
  py_call : function → list value → list (string * value) → result value;
  py_str : value → string
}.

Section core.
Context `{Runtime}.

(** ** class DataCache *)

(** [DataCache.__init__]: [fs] is the content of the disk when the cache is
    created.  Directories are not modelled: a file is there or not, by its
    path. *)
Definition DataCache_init (directory : string) (fs : gmap string file) : DataCache :=
  mkDataCache directory ∅ ∅ [] fs 0 [].

Definition make_path (name_tuple : value) : string := joblib_hash name_tuple.

Definition DataCache_store (name value : value) : M unit :=
  λ dc, (Ok (), log (Stored name value)
                (set_files <[os_path_join (directory dc) (make_path name) := Pickle value]> dc)).

Definition DataCache_load (dc : DataCache) (name : value) : result value :=
  match files dc !! os_path_join (directory dc) (make_path name) with
  | Some (Pickle v) => Ok v
  | Some (Text _) => Raise UnpicklingError
  | None => Raise FileNotFoundError
  end.

Definition DataCache_load_hash (dc : DataCache) (name : value) : result (option string) :=
  let hash_file := os_path_join (directory dc) (make_path name +:+ ".hash") in
  match files dc !! hash_file with
  | None => Ok None
  | Some (Text s) => Ok (Some s)
  | Some (Pickle _) => Raise UnicodeDecodeError
  end.

Definition DataCache_store_hash (name : value) (hash : string) : M unit :=
  λ dc, let hash_file := os_path_join (directory dc) (make_path name +:+ ".hash") in
        (Ok (), log (StoredHash name hash) (set_files <[hash_file := Text hash]> dc)).

(** ** [apply_with_kwargs] and the task graph executor *)

Definition apply_with_kwargs (function : function) (args kwargs : list value) : result value :=
  d ← py_dict kwargs;
  kw ← keywords d;
  py_call function args kw.

(** [dask.threaded.get(dsk, key)] on the graph of [dc].  An argument of a
    task that is a key of the graph stands for the value of that key; the
    elements of a list argument are treated the same way; every other
    argument is passed as it is.  Dependencies are evaluated depth first,
    from left to right.  [get] is the evaluation of a key. *)
Definition execute_arg (get : Call → result value) (dc : DataCache)
    (arg : value) : result value :=
  match isinstance_Call arg with
  | Some c => if decide (is_Some (graph dc !! c)) then get c else Ok arg
  | None => Ok arg
  end.

Definition execute_task (get : Call → result value) (dc : DataCache)
    (t : task) : result value :=
  match t with
  | Task_apply_with_kwargs function args kwargs =>
      args' ← mapM (execute_arg get dc) args;
      kwargs' ← mapM (execute_arg get dc) kwargs;
      apply_with_kwargs function args' kwargs'
  | Task_load name =>
      name' ← execute_arg get dc name;
      DataCache_load dc name'
  end.

(** [fuel] bounds the length of a dependency chain. *)
Fixpoint dask_get (fuel : nat) (dc : DataCache) (key : Call) : result value :=
  match fuel with
  | 0 => Raise RuntimeError
  | S fuel' =>
      match graph dc !! key with
      | None => Raise KeyError
      | Some t => execute_task (dask_get fuel' dc) dc t
      end
  end.

(** ** class Step *)

Definition dict_keys (kw : list (string * value)) : list value :=
  map (λ kv, VStr kv.1) kw.

Definition Step_recompute (self : Step) : M unit :=
  modify (λ dc, log (Recomputed (trail self))
    (set_graph <[trail self := Task_apply_with_kwargs (target self)
                                 (step_args self) (dict_keys (step_kwargs self))]> dc)).

Definition Step_init (trail : Call) (target : function)
    (args : list value) (kwargs : list (string * value)) : M Step :=
  sid ← read next_sid;
  let self := mkStep sid trail target args kwargs in
  modify (set_next_sid S);;
  modify (set_step_graph <[trail := self]>);;
  Step_recompute self;;
  mret self.

Definition Step_step (self : Step) (target : function)
    (args : list value) (kwargs : list (string * value)) : M Step :=
  let name := f_name target in
  let args := Call_value (trail self) :: args in
  let trail := mkCall name args (hashabledict kwargs) in
  Step_init trail target args kwargs.

(** [dask.threaded.get] raises on a cyclic graph; a dependency chain
    longer than the number of keys repeats a key, so one unit of fuel more
    than the graph has keys is enough (see [dask_get_fuel_enough]). *)
Definition Step_get (self : Step) : M value :=
  λ dc, (dask_get (S (size (graph dc))) dc (trail self), log (Got (trail self)) dc).

(** The first loop of [previous]: [for a in self.trail.args]. *)
Fixpoint previous_args (sg : gmap Call Step) (l : list value)
    (rest : generator Step) : generator Step :=
  match l with
  | [] => rest
  | a :: l' =>
      match isinstance_Call a with
      | Some c =>
          match sg !! c with
          | Some p => gen_yield p (previous_args sg l' rest)
          | None => mkGenerator [] (Some KeyError)
          end
      | None => previous_args sg l' rest
      end
  end.

(** The second loop of [previous]: [for k, v in self.trail.kwargs], over
    what iterating the mapping gives. *)
Fixpoint previous_kwargs (sg : gmap Call Step) (l : list value) : generator Step :=
  match l with
  | [] => mkGenerator [] None
  | item :: l' =>
      match unpack_pair item with
      | Ok (k, v) =>
          match isinstance_Call v with
          | Some c =>
              match sg !! c with
              | Some p => gen_yield p (previous_kwargs sg l')
              | None => mkGenerator [] (Some KeyError)
              end
          | None => previous_kwargs sg l'
          end
      | Raise e => mkGenerator [] (Some e)
      end
  end.

Definition Step_previous (dc : DataCache) (self : Step) : generator Step :=
  previous_args (step_graph dc) (args (trail self))
    (match py_iter (VDict (kwargs (trail self))) with
     | Ok keys => previous_kwargs (step_graph dc) keys
     | Raise e => mkGenerator [] (Some e)
     end).

Definition is_Call (v : value) : bool := bool_decide (is_Some (isinstance_Call v)).

Definition Step_has_deps (self : Step) : bool :=
  existsb is_Call (args (trail self))
  || existsb is_Call (map snd (kwargs (trail self))).

Definition uniquity (self : Step) : value :=
  VTuple [Call_value (trail self); VTuple (step_args self); VDict (step_kwargs self);
          VBytes (co_code (target self));
          VTuple (map const_value (co_consts (target self)))].

Fixpoint Step_hash_fuel (fuel : nat) (dc : DataCache) (self : Step) : result string :=
  match fuel with
  | 0 => Raise RecursionError
  | S fuel' =>
      previous_hash ←
        (if Step_has_deps self then
           let g := Step_previous dc self in
           hs ← mapM (Step_hash_fuel fuel' dc) (yields g);
           match raised g with
           | Some e => Raise e
           | None => Ok (String.concat "" hs)
           end
         else Ok "");
      Ok (previous_hash +:+ joblib_hash (uniquity self))
  end.

(** [Step.hash]: the recursion follows the Trails nested in the Trail, so
    the nesting depth bounds it (see [Step_hash_fuel_enough]). *)
Definition Step_hash (dc : DataCache) (self : Step) : result string :=
  Step_hash_fuel (S (value_depth (Call_value (trail self)))) dc self.

Definition store_name (self : Step) : value := Call_add (trail self) [VStr ".store"].

Definition Step_checkpoint (self : Step) (recompute : bool) : M Step :=
  hash_ ← (λ dc, (Step_hash dc self, dc));
  stored ← (λ dc, (DataCache_load_hash dc (Call_value (trail self)), dc));
  (if bool_decide (Some hash_ ≠ stored) || recompute then
     Step_recompute self;;
     result ← Step_get self;
     DataCache_store (store_name self) result;;
     DataCache_store_hash (Call_value (trail self)) hash_
   else mret ());;
  modify (set_graph <[trail self := Task_load (store_name self)]>);;
  mret self.

(** ** The methods of [DataCache] that use [Step] *)

Definition DataCache_step (target : function)
    (args : list value) (kwargs : list (string * value)) : M Step :=
  let name := f_name target in
  let trail := mkCall name args (hashabledict kwargs) in
  Step_init trail target args kwargs.

(** The body of the loop of [record]: [if isinstance(arg, Step): arg =
    arg.get()]. *)
Definition processed_arg (arg : value) : M value :=
  match isinstance_Step arg with
  | Some s => Step_get s
  | None => mret arg
  end.

Definition DataCache_record (target : function)
    (args : list value) (kwargs : list (string * value)) : M value :=
  processed_args ← mapM processed_arg args;
  result ← lift (py_call target processed_args kwargs);
  modify (set_observed (λ o, o ++ [(f_name target, args, kwargs, result)]));;
  mret result.

Definition summary_line (o : observation) : result string :=
  let '(name, args, kwargs, result) := o in
  args' ← mapM (λ a, match isinstance_Step a with
                     | Some _ => Raise AttributeError
                     | None => Ok a
                     end) args;
  Ok (name +:+ py_str (VTuple args') +:+ " = " +:+ py_str result).

Definition DataCache_summary (dc : DataCache) : result string :=
  lines ← mapM summary_line (observed dc);
  Ok (String.concat newline lines).

Definition Step_record (self : Step) : M value :=
  DataCache_record (target self) (step_args self) (step_kwargs self).

(** The first element of [path] in [prepr]: the template, chosen by the
    emptiness of the two rendered strings, filled with the function name,
    [args] and [kwargs]. *)
Definition prepr_head (self : Step) : string :=
  let args := String.concat ", "
    (map (λ a, if is_Call a then "*" else py_str a) (args (trail self))) in
  let kwargs := String.concat ","
    (map (λ kv : string * value, kv.1 +:+ "=" +:+ py_str kv.2) (kwargs (trail self))) in
  if bool_decide (args = "") && bool_decide (kwargs = "") then
    func (trail self) +:+ args +:+ kwargs
  else if bool_decide (args = "") && bool_decide (kwargs ≠ "")
          || bool_decide (kwargs = "") && bool_decide (args ≠ "") then
    func (trail self) +:+ "(" +:+ args +:+ kwargs +:+ ")"
  else
    func (trail self) +:+ "(" +:+ args +:+ ", " +:+ kwargs +:+ ")".

Fixpoint Step_prepr_fuel (fuel : nat) (dc : DataCache) (self : Step) : result string :=
  match fuel with
  | 0 => Raise RecursionError
  | S fuel' =>
      let head := prepr_head self in
      let g := Step_previous dc self in
      rest ← mapM (Step_prepr_fuel fuel' dc) (yields g);
      match raised g with
      | Some e => Raise e
      | None => Ok (String.concat "<-" (head :: rest))
      end
  end.

(** [Step.prepr]: like [hash], the recursion follows the Trails nested in
    the Trail (see [Step_prepr_fuel_enough]). *)
Definition Step_prepr (dc : DataCache) (self : Step) : result string :=
  Step_prepr_fuel (S (value_depth (Call_value (trail self)))) dc self.

End core.

Arguments Step_prepr : simpl never.

Arguments dask_get : simpl never.
Arguments Step_hash : simpl never.
Arguments os_path_join : simpl never.
Arguments DataCache_load_hash : simpl never.
Arguments DataCache_load : simpl never.

(** * The vocabulary of the statements *)

Section vocabulary.
Context `{Runtime}.

(** The entry that [recompute] installs and the entry that [checkpoint]
    leaves behind. *)
Definition fresh_task (self : Step) : task :=
  Task_apply_with_kwargs (target self) (step_args self) (dict_keys (step_kwargs self)).

Definition cached_task (self : Step) : task := Task_load (store_name self).

Definition store_file (dc : DataCache) (self : Step) : string :=
  os_path_join (directory dc) (make_path (store_name self)).

Definition hash_file (dc : DataCache) (self : Step) : string :=
  os_path_join (directory dc) (make_path (Call_value (trail self)) +:+ ".hash").

(** The state in which a stale checkpoint ends. *)
Definition checkpointed (dc : DataCache) (self : Step) (h : string) (result : value) :
    DataCache :=
  mkDataCache (directory dc)
    (<[trail self := cached_task self]> (graph dc))
    (step_graph dc) (observed dc)
    (<[hash_file dc self := Text h]>
       (<[store_file dc self := Pickle result]> (files dc)))
    (next_sid dc)
    (journal dc ++ [Recomputed (trail self); Got (trail self);
                    Stored (store_name self) result;
                    StoredHash (Call_value (trail self)) h]).

(** [touches self dc dc']: from [dc] to [dc'] the step registry is kept
    and the graph is kept or overwritten at the Trail of [self]. *)
Definition touches (self : Step) (dc dc' : DataCache) : Prop :=
  step_graph dc' = step_graph dc
  ∧ (graph dc' = graph dc ∨ ∃ t, graph dc' = <[trail self := t]> (graph dc)).

(** The states that a program can build: [reachable dc steps] holds when
    [dc] results from [DataCache(directory)] by calls of the methods of
    [core.py], where [steps] are the [Step] objects constructed so far.  A
    call that raises leaves the state it had reached. *)
Inductive reachable : DataCache → list Step → Prop :=
  | reach_init directory fs :
      reachable (DataCache_init directory fs) []
  | reach_DataCache_step dc steps f a k self dc' :
      reachable dc steps →
      DataCache_step f a k dc = (Ok self, dc') →
      reachable dc' (self :: steps)
  | reach_Step_step dc steps parent f a k self dc' :
      reachable dc steps → parent ∈ steps →
      Step_step parent f a k dc = (Ok self, dc') →
      reachable dc' (self :: steps)
  | reach_Step_init dc steps t f a k self dc' :
      reachable dc steps →
      Step_init t f a k dc = (Ok self, dc') →
      reachable dc' (self :: steps)
  | reach_recompute dc steps self r dc' :
      reachable dc steps → self ∈ steps →
      Step_recompute self dc = (r, dc') →
      reachable dc' steps
  | reach_get dc steps self r dc' :
      reachable dc steps → self ∈ steps →
      Step_get self dc = (r, dc') →
      reachable dc' steps
  | reach_checkpoint dc steps self recompute r dc' :
      reachable dc steps → self ∈ steps →
      Step_checkpoint self recompute dc = (r, dc') →
      reachable dc' steps
  | reach_record dc steps f a k r dc' :
      reachable dc steps →
      DataCache_record f a k dc = (r, dc') →
      reachable dc' steps
  | reach_store dc steps name v r dc' :
      reachable dc steps →
      DataCache_store name v dc = (r, dc') →
      reachable dc' steps
  | reach_store_hash dc steps name h r dc' :
      reachable dc steps →
      DataCache_store_hash name h dc = (r, dc') →
      reachable dc' steps.

(** The invariant: equal key sets, and every constructed Step has its
    Trail among the keys. *)
Definition registered (dc : DataCache) (steps : list Step) : Prop :=
  dom (graph dc) = dom (step_graph dc)
  ∧ ∀ self : Step, self ∈ steps → trail self ∈ dom (step_graph dc).

(** Every Step is registered under its own Trail. *)
Definition step_graph_wf (dc : DataCache) : Prop :=
  ∀ (c : Call) (p : Step), step_graph dc !! c = Some p → trail p = c.

(** [resolved dc arg p]: [p] is what the loop of [record] makes of the
    positional argument [arg]: the value of [arg.get()] for a Step, and
    [arg] itself otherwise. *)
Definition resolved (dc : DataCache) (arg p : value) : Prop :=
  match isinstance_Step arg with
  | Some s => (Step_get s dc).1 = Ok p
  | None => p = arg
  end.

(** The keys that evaluate with a given fuel. *)
Definition evaluates (fuel : nat) (dc : DataCache) (key : Call) : Prop :=
  ∃ v, dask_get fuel dc key = Ok v.

#[global] Instance evaluates_dec fuel dc key : Decision (evaluates fuel dc key).
Proof.
  unfold evaluates. destruct (dask_get fuel dc key) as [v|e].
  - left. by exists v.
  - right. by intros [v ?].
Defined.

Definition evaluated (fuel : nat) (dc : DataCache) : gset Call :=
  filter (evaluates fuel dc) (dom (graph dc)).

(** The line of [summary] for a recorded call. *)
Definition rendered_line (o : observation) : string :=
  o.1.1.1 +:+ py_str (VTuple o.1.1.2) +:+ " = " +:+ py_str o.2.

End vocabulary.

(** * A concrete pipeline

    The pipeline of the end-to-end scenario: [square(x) = x*x] and
    [addOne(x) = x+1], and a function [probe( *args, **kwargs)] that
    returns [(args, kwargs)], what it was called with. *)

Definition square : function := Function 0 "square" "|x*x" [KNone].
Definition addOne : function := Function 1 "addOne" "|x+1" [KNone; KInt 1].
Definition probe : function := Function 2 "probe" "|a,k" [KNone].

(** A second function whose [__name__] is [square]; it computes the cube. *)
Definition square' : function := Function 3 "square" "|x*x*x" [KNone].

Definition example_call (f : function) (a : list value) (k : list (string * value)) :
    result value :=
  match fid f, a, k with
  | 0, [VInt x], [] => Ok (VInt (x * x))
  | 1, [VInt x], [] => Ok (VInt (x + 1))
  | 2, _, _ => Ok (VTuple [VTuple a; VDict k])
  | 3, [VInt x], [] => Ok (VInt (x * x * x))
  | _, _, _ => Raise TypeError
  end.

(** A rendering of values that stands for [str] and, being injective on
    the values of the examples, for the digest. *)
Fixpoint show (v : value) : string :=
  let items := map (λ kv : string * value, let '(k, x) := kv in k +:+ "=" +:+ show x) in
  match v with
  | VNone => "None"
  | VInt n => pretty n
  | VStr s => "'" +:+ s +:+ "'"
  | VBytes b => "b'" +:+ b +:+ "'"
  | VTuple xs => "(" +:+ String.concat ", " (map show xs) +:+ ")"
  | VDict kvs => "{" +:+ String.concat ", " (items kvs) +:+ "}"
  | VCall f a k =>
      "Call(" +:+ f +:+ ", (" +:+ String.concat ", " (map show a) +:+ "), {"
      +:+ String.concat ", " (items k) +:+ "})"
  | VStep i _ f _ _ _ _ => "<Step " +:+ pretty i +:+ " " +:+ f +:+ ">"
  end.

Definition example_runtime : Runtime := {|
  joblib_hash := show;
  py_call := example_call;
  py_str := show
|}.

(** Another implementation of [square], under the same name. *)
Definition square_v2 : function := Function 0 "square" "|x**2" [KNone; KInt 2].

(** A runtime whose digest is injective: the decimal numeral of the code
    of the value. *)
Definition numeral_runtime : Runtime := {|
  joblib_hash := λ v, pretty (encode v);
  py_call := example_call;
  py_str := show
|}.

Section pipeline.
#[local] Existing Instance example_runtime.

Definition dc0 : DataCache := DataCache_init "./dc" ∅.

(** [sq = cache.step(square, 3)] and the cache after it. *)
Definition sq : Step := mkStep 0 (mkCall "square" [VInt 3] []) square [VInt 3] [].
Definition dc_sq : DataCache := (DataCache_step square [VInt 3] [] dc0).2.

(** [inc = sq.step(addOne)] and the cache after it. *)
Definition inc : Step :=
  mkStep 1 (mkCall "addOne" [Call_value (trail sq)] []) addOne [Call_value (trail sq)] [].
Definition dc_inc : DataCache := (Step_step sq addOne [] [] dc_sq).2.

Definition hash_inc : string := joblib_hash (uniquity sq) +:+ joblib_hash (uniquity inc).

(** The cache after [inc.checkpoint()]. *)
Definition dc_chk : DataCache := checkpointed dc_inc inc hash_inc (VInt 10).

(** The cache after [cache.record(square, sq)]. *)
Definition dc_rec : DataCache := (DataCache_record square [Step_value sq] [] dc_sq).2.

(** [kw = cache.step(square, x=1)] and the cache after it. *)
Definition kw : Step :=
  mkStep 0 (mkCall "square" [] [("x", VInt 1)]) square [] [("x", VInt 1)].
Definition dc_kw : DataCache := (DataCache_step square [] [("x", VInt 1)] dc0).2.


(** A Step built by hand on a Trail that was never registered. *)
Definition orphan : Step :=
  mkStep 0 (mkCall "addOne" [VInt 0; VCall "nowhere" [] []] []) addOne
         [VInt 0; VCall "nowhere" [] []] [].

(** The cache after [cache.record(square, 4)]. *)
Definition dc_rec4 : DataCache := (DataCache_record square [VInt 4] [] dc0).2.

(** The pipeline over [square_v2]. *)
Definition sq_v2 : Step := mkStep 0 (mkCall "square" [VInt 3] []) square_v2 [VInt 3] [].
Definition dc_sq_v2 : DataCache := (DataCache_step square_v2 [VInt 3] [] dc0).2.
Definition dc_inc_v2 : DataCache := (Step_step sq_v2 addOne [] [] dc_sq_v2).2.

End pipeline.

Section pipeline_numeral.
#[local] Existing Instance numeral_runtime.

(** The cache of [sq_v2] over a directory that holds the hash of [sq]. *)
Definition dc_changed : DataCache :=
  set_files <[hash_file dc_sq_v2 sq_v2 := Text (joblib_hash (uniquity sq))]> dc_sq_v2.

End pipeline_numeral.

Section pipeline_rest.
#[local] Existing Instance example_runtime.

End pipeline_rest.

(** * Properties *)

Section properties.
Context `{Runtime}.

(** ** Auxiliary facts *)

(** Unfolds the state transformers and the field updates by value, so
    that projections of updated records reduce as they appear. *)
Ltac cache_unfold :=
  cbv beta iota zeta delta
    [DataCache_store DataCache_store_hash Step_recompute Step_get
     modify read lift mret M_ret mbind M_bind
     set_graph set_files set_step_graph set_observed set_next_sid log
     directory graph step_graph observed files next_sid journal].

Tactic Notation "cache_unfold" "in" hyp(H) :=
  cbv beta iota zeta delta
    [DataCache_store DataCache_store_hash Step_recompute Step_get
     modify read lift mret M_ret mbind M_bind
     set_graph set_files set_step_graph set_observed set_next_sid log
     directory graph step_graph observed files next_sid journal] in H.

Lemma mapM_agree {F : Type → Type} `{MBind F, MRet F} {A B : Type}
    (f g : A → F B) (l : list A) :
  Forall (λ x, f x = g x) l → mapM f l = mapM g l.
Proof. induction 1 as [|x l Hx _ IH]; simpl; [done | by rewrite Hx, IH]. Qed.

(** ** What the operations leave alone *)

Lemma previous_hash_step_graph (fuel : nat) (dc dc' : DataCache) (self : Step) :
  step_graph dc = step_graph dc' →
  Step_hash_fuel fuel dc self = Step_hash_fuel fuel dc' self.
Proof.
  intros Hsg. revert self.
  induction fuel as [|fuel IH]; intros self; simpl; [done|].
  unfold Step_previous. rewrite <-Hsg.
  destruct (Step_has_deps self); [|done].
  rewrite (mapM_agree (Step_hash_fuel fuel dc) (Step_hash_fuel fuel dc')); [done|].
  apply Forall_forall. intros p _. apply IH.
Qed.

Lemma Step_hash_step_graph (dc dc' : DataCache) (self : Step) :
  step_graph dc = step_graph dc' → Step_hash dc self = Step_hash dc' self.
Proof. apply previous_hash_step_graph. Qed.

(** ** [Step.checkpoint] *)

Lemma Step_checkpoint_stale (dc dc1 dc2 : DataCache) (self : Step) (recompute : bool)
    (h : string) (stored : option string) (result : value) :
  Step_hash dc self = Ok h →
  DataCache_load_hash dc (Call_value (trail self)) = Ok stored →
  stored ≠ Some h ∨ recompute = true →
  Step_recompute self dc = (Ok (), dc1) →
  Step_get self dc1 = (Ok result, dc2) →
  Step_checkpoint self recompute dc = (Ok self, checkpointed dc self h result).
Proof.
  intros Hhash Hstored Hstale Hre Hget.
  unfold Step_checkpoint, mbind, M_bind. rewrite Hhash, Hstored.
  assert (bool_decide (Some h ≠ stored) || recompute = true) as ->.
  { destruct Hstale as [Hne | ->]; [|by rewrite orb_true_r].
    rewrite bool_decide_eq_true_2; [done | congruence]. }
  rewrite Hre, Hget.
  unfold Step_recompute, modify in Hre. injection Hre as <-.
  unfold Step_get in Hget. injection Hget as _ <-.
  unfold store_file, hash_file, checkpointed. cache_unfold.
  rewrite insert_insert_eq, <-!app_assoc. reflexivity.
Qed.

Lemma Step_checkpoint_fresh (dc : DataCache) (self : Step) (h : string) :
  Step_hash dc self = Ok h →
  DataCache_load_hash dc (Call_value (trail self)) = Ok (Some h) →
  Step_checkpoint self false dc =
    (Ok self, set_graph <[trail self := cached_task self]> dc).
Proof.
  intros Hhash Hstored.
  unfold Step_checkpoint, mbind, M_bind. rewrite Hhash, Hstored.
  rewrite bool_decide_eq_false_2 by (intros Hne; by apply Hne).
  done.
Qed.


(** C3. When [checkpoint()] has returned, a second [checkpoint()] on the
    same Step computes the hash that [load_hash] returns, so it performs
    no [recompute()], [get()], [store] or [store_hash] (the journal and
    the files stay as they are) and only writes the load entry, which is
    already the graph entry: the state does not change.  The first call
    performed those four operations exactly when the stored hash
    differed from the computed one. *)
Theorem Step_checkpoint_twice (dc dc1 : DataCache) (self : Step) :
  Step_checkpoint self false dc = (Ok self, dc1) →
  ∃ (h : string) (stored : option string),
    Step_hash dc self = Ok h
    ∧ DataCache_load_hash dc (Call_value (trail self)) = Ok stored
    ∧ (stored ≠ Some h →
       ∃ result, journal dc1 =
         journal dc ++ [Recomputed (trail self); Got (trail self);
                        Stored (store_name self) result;
                        StoredHash (Call_value (trail self)) h])
    ∧ (stored = Some h → journal dc1 = journal dc ∧ files dc1 = files dc)
    ∧ Step_hash dc1 self = Ok h
    ∧ DataCache_load_hash dc1 (Call_value (trail self)) = Ok (Some h)
    ∧ graph dc1 !! trail self = Some (cached_task self)
    ∧ Step_checkpoint self false dc1 = (Ok self, dc1).
Proof.
  intros Hfirst.
  destruct (Step_hash dc self) as [h|e] eqn:Hhash; cycle 1.
  { unfold Step_checkpoint, mbind, M_bind in Hfirst. by rewrite Hhash in Hfirst. }
  destruct (DataCache_load_hash dc (Call_value (trail self))) as [stored|e] eqn:Hstored;
    cycle 1.
  { unfold Step_checkpoint, mbind, M_bind in Hfirst.
    by rewrite Hhash, Hstored in Hfirst. }
  exists h, stored. split; [done|]. split; [done|].
  assert (∀ dc', step_graph dc' = step_graph dc → directory dc' = directory dc →
      files dc' !! hash_file dc self = Some (Text h) →
      graph dc' !! trail self = Some (cached_task self) →
      Step_hash dc' self = Ok h
      ∧ DataCache_load_hash dc' (Call_value (trail self)) = Ok (Some h)
      ∧ graph dc' !! trail self = Some (cached_task self)
      ∧ Step_checkpoint self false dc' = (Ok self, dc')) as Hsecond.
  { intros dc' Hsg Hdir Hfile Hgraph.
    assert (Step_hash dc' self = Ok h) as Hhash'.
    { by rewrite (Step_hash_step_graph dc' dc). }
    assert (DataCache_load_hash dc' (Call_value (trail self)) = Ok (Some h)) as Hstored'.
    { unfold DataCache_load_hash. unfold hash_file in Hfile.
      by rewrite Hdir, Hfile. }
    split_and!; try done.
    rewrite (Step_checkpoint_fresh dc' self h) by done.
    f_equal. destruct dc'; unfold set_graph; simpl in *.
    by rewrite insert_id. }
  destruct (decide (stored = Some h)) as [->|Hne].
  - rewrite (Step_checkpoint_fresh dc self h) in Hfirst by done.
    injection Hfirst as <-.
    split; [done|]. split; [done|].
    apply Hsecond; try done.
    + unfold DataCache_load_hash in Hstored. unfold hash_file. simpl.
      destruct (files dc !! _) as [[]|]; by simplify_eq.
    + simpl. by rewrite lookup_insert_eq.
  - unfold Step_checkpoint, mbind, M_bind in Hfirst.
    rewrite Hhash, Hstored in Hfirst.
    rewrite bool_decide_eq_true_2 in Hfirst by congruence.
    simpl in Hfirst. unfold Step_get in Hfirst.
    destruct (dask_get _ _ _) as [result|e] eqn:Hget; [|done].
    injection Hfirst as <-.
    split; [intros _; exists result; simpl; by rewrite <-!app_assoc|].
    split; [done|].
    apply Hsecond; try done; simpl.
    + by rewrite lookup_insert_eq.
    + by rewrite lookup_insert_eq.
Qed.

(** ** The two maps of the cache *)

Lemma Step_init_eq (t : Call) (f : function) (a : list value)
    (k : list (string * value)) (dc : DataCache) :
  let self := mkStep (next_sid dc) t f a k in
  Step_init t f a k dc =
    (Ok self,
     mkDataCache (directory dc) (<[t := fresh_task self]> (graph dc))
       (<[t := self]> (step_graph dc)) (observed dc) (files dc)
       (S (next_sid dc)) (journal dc ++ [Recomputed t])).
Proof. done. Qed.

Lemma Step_recompute_touches (self : Step) (dc dc' : DataCache) (r : result unit) :
  Step_recompute self dc = (r, dc') → touches self dc dc'.
Proof. intros [= <- <-]. split; [done|]. right. by eexists. Qed.

Lemma Step_get_touches (self : Step) (dc dc' : DataCache) (r : result value) :
  Step_get self dc = (r, dc') → touches self dc dc'.
Proof. intros [= <- <-]. split; [done|]. by left. Qed.

Lemma Step_checkpoint_touches (self : Step) (recompute : bool)
    (dc dc' : DataCache) (r : result Step) :
  Step_checkpoint self recompute dc = (r, dc') → touches self dc dc'.
Proof.
  unfold Step_checkpoint, mbind, M_bind.
  destruct (Step_hash dc self) as [h|e]; cycle 1.
  { intros [= <- <-]. split; [done | by left]. }
  destruct (DataCache_load_hash dc _) as [stored|e]; cycle 1.
  { intros [= <- <-]. split; [done | by left]. }
  destruct (bool_decide _ || recompute); simpl.
  - unfold Step_get. destruct (dask_get _ _ _) as [result|e]; simpl.
    + intros [= <- <-]. split; [done|]. right. simpl.
      eexists. by rewrite insert_insert_eq.
    + intros [= <- <-]. split; [done|]. right. by eexists.
  - intros [= <- <-]. split; [done|]. right. by eexists.
Qed.

Lemma processed_args_keeps (l : list value) (dc dc' : DataCache)
    (r : result (list value)) :
  mapM processed_arg l dc = (r, dc') →
  graph dc' = graph dc ∧ step_graph dc' = step_graph dc
  ∧ observed dc' = observed dc ∧ files dc' = files dc.
Proof.
  revert dc dc' r. induction l as [|a l IH]; intros dc dc' r; simpl.
  { by intros [= <- <-]. }
  unfold mbind, M_bind.
  destruct (processed_arg a dc) as [[v|e] dc1] eqn:Ha.
  - assert (graph dc1 = graph dc ∧ step_graph dc1 = step_graph dc
            ∧ observed dc1 = observed dc ∧ files dc1 = files dc) as (<- & <- & <- & <-).
    { unfold processed_arg in Ha. destruct (isinstance_Step a).
      - by injection Ha as _ <-.
      - by injection Ha as _ <-. }
    destruct (mapM processed_arg l dc1) as [[vs|e] dc2] eqn:Hl;
      apply IH in Hl; by intros [= <- <-].
  - unfold processed_arg in Ha. destruct (isinstance_Step a).
    + injection Ha as _ <-. by intros [= <- <-].
    + done.
Qed.

Lemma DataCache_record_keeps (f : function) (a : list value)
    (k : list (string * value)) (dc dc' : DataCache) (r : result value) :
  DataCache_record f a k dc = (r, dc') →
  graph dc' = graph dc ∧ step_graph dc' = step_graph dc ∧ files dc' = files dc.
Proof.
  unfold DataCache_record, mbind, M_bind.
  destruct (mapM processed_arg a dc) as [[vs|e] dc1] eqn:Hl;
    apply processed_args_keeps in Hl as (? & ? & ? & ?); [|by intros [= <- <-]].
  unfold lift. destruct (py_call f vs k); by intros [= <- <-].
Qed.

Lemma touches_same_keys (self : Step) (dc dc' : DataCache) :
  touches self dc dc' →
  trail self ∈ dom (graph dc) →
  dom (graph dc') = dom (graph dc) ∧ dom (step_graph dc') = dom (step_graph dc).
Proof.
  intros [-> [-> | [t ->]]] Hin; [done|].
  split; [|done]. rewrite dom_insert_L.
  by apply subseteq_union_1_L, singleton_subseteq_l.
Qed.

Lemma registered_Step_init (dc dc' : DataCache) (steps : list Step) (t : Call)
    (f : function) (a : list value) (k : list (string * value)) (self : Step) :
  registered dc steps →
  Step_init t f a k dc = (Ok self, dc') →
  registered dc' (self :: steps).
Proof.
  intros [Hdom Hsteps]. rewrite Step_init_eq. intros [= <- <-].
  unfold registered. simpl.
  rewrite !dom_insert_L, Hdom. split; [done|].
  intros s [->|Hs]%elem_of_cons; simpl.
  - apply elem_of_union_l. by apply elem_of_singleton.
  - apply elem_of_union_r. by apply Hsteps.
Qed.

Lemma registered_touches (dc dc' : DataCache) (steps : list Step) (self : Step) :
  registered dc steps → self ∈ steps → touches self dc dc' →
  registered dc' steps.
Proof.
  intros [Hdom Hsteps] Hself Ht.
  destruct (touches_same_keys self dc dc' Ht) as [Hg Hs].
  { rewrite Hdom. by apply Hsteps. }
  unfold registered. rewrite Hg, Hs. by split.
Qed.

Lemma reachable_registered (dc : DataCache) (steps : list Step) :
  reachable dc steps → registered dc steps.
Proof.
  induction 1 as
    [ directory fs
    | dc steps f a k self dc' _ IH Hop
    | dc steps parent f a k self dc' _ IH _ Hop
    | dc steps t f a k self dc' _ IH Hop
    | dc steps self r dc' _ IH Hself Hop
    | dc steps self r dc' _ IH Hself Hop
    | dc steps self recompute r dc' _ IH Hself Hop
    | dc steps f a k r dc' _ IH Hop
    | dc steps name v r dc' _ IH Hop
    | dc steps name h r dc' _ IH Hop ].
  - split; [done|]. by intros self ?%elem_of_nil.
  - by eapply registered_Step_init.
  - by eapply registered_Step_init.
  - by eapply registered_Step_init.
  - eapply registered_touches; [done..|]. by eapply Step_recompute_touches.
  - eapply registered_touches; [done..|]. by eapply Step_get_touches.
  - eapply registered_touches; [done..|]. by eapply Step_checkpoint_touches.
  - apply DataCache_record_keeps in Hop as (Hg & Hs & _).
    unfold registered. by rewrite Hg, Hs.
  - by injection Hop as _ <-.
  - by injection Hop as _ <-.
Qed.

(** C9. [graph] and [step_graph] have the same keys in every state that
    a program can build: (1) both are empty after construction; (2) the
    construction of a Step, whether by [DataCache.step], by [Step.step] or
    directly, inserts its Trail into both; (3) [recompute()] and
    [checkpoint()], on a Step that was constructed on this cache, keep
    the keys of both maps, also when they raise; (4) so the key sets
    agree in every reachable state. *)
Theorem graph_step_graph_same_keys :
  (∀ directory fs,
     graph (DataCache_init directory fs) = ∅
     ∧ step_graph (DataCache_init directory fs) = ∅)
  ∧ (∀ t f a k dc self dc',
       Step_init t f a k dc = (Ok self, dc') →
       trail self = t
       ∧ dom (graph dc') = {[t]} ∪ dom (graph dc)
       ∧ dom (step_graph dc') = {[t]} ∪ dom (step_graph dc))
  ∧ (∀ dc steps self, reachable dc steps → self ∈ steps →
       (∀ r dc', Step_recompute self dc = (r, dc') →
          dom (graph dc') = dom (graph dc) ∧ step_graph dc' = step_graph dc)
       ∧ (∀ recompute r dc', Step_checkpoint self recompute dc = (r, dc') →
          dom (graph dc') = dom (graph dc) ∧ step_graph dc' = step_graph dc))
  ∧ (∀ dc steps, reachable dc steps → dom (graph dc) = dom (step_graph dc)).
Proof.
  split_and!.
  - done.
  - intros t f a k dc self dc'. rewrite Step_init_eq. intros [= <- <-]. simpl.
    by rewrite !dom_insert_L.
  - intros dc steps self Hreach Hself.
    destruct (reachable_registered dc steps Hreach) as [Hdom Hsteps].
    assert (trail self ∈ dom (graph dc)) as Hin.
    { rewrite Hdom. by apply Hsteps. }
    split.
    + intros r dc' Hop%Step_recompute_touches.
      split; [by eapply touches_same_keys | by destruct Hop].
    + intros recompute r dc' Hop%Step_checkpoint_touches.
      split; [by eapply touches_same_keys | by destruct Hop].
  - intros dc steps Hreach. by apply (reachable_registered dc steps).
Qed.

(** ** Chaining *)

Lemma list_max_elem (l : list nat) (n : nat) : n ∈ l → (n ≤ list_max l)%nat.
Proof.
  induction 1 as [n l | n m l _ IH]; simpl; lia.
Qed.


Lemma isinstance_Call_value (t : Call) : isinstance_Call (Call_value t) = Some t.
Proof. by destruct t. Qed.

Lemma Call_eta (t : Call) : mkCall (func t) (args t) (kwargs t) = t.
Proof. by destruct t. Qed.


(** ** Trails name functions *)


(** ** [DataCache.record] and [DataCache.summary] *)

Lemma dask_get_S (fuel : nat) (dc : DataCache) (key : Call) :
  dask_get (S fuel) dc key =
    match graph dc !! key with
    | None => Raise KeyError
    | Some t => execute_task (dask_get fuel dc) dc t
    end.
Proof. done. Qed.

(** The executor reads the graph, the directory and the files only. *)
Lemma dask_get_reads (fuel : nat) (dc dc' : DataCache) (key : Call) :
  directory dc' = directory dc → graph dc' = graph dc → files dc' = files dc →
  dask_get fuel dc' key = dask_get fuel dc key.
Proof.
  intros Hdir Hgraph Hfiles. revert key.
  induction fuel as [|fuel IH]; intros key; [done|].
  rewrite !dask_get_S, Hgraph.
  assert (∀ arg, execute_arg (dask_get fuel dc') dc' arg
                 = execute_arg (dask_get fuel dc) dc arg) as Harg.
  { intros arg. unfold execute_arg. rewrite Hgraph.
    destruct (isinstance_Call arg); [|done]. by rewrite IH. }
  destruct (graph dc !! key) as [[f a k|name]|]; [| |done]; unfold execute_task.
  - rewrite (mapM_agree _ (execute_arg (dask_get fuel dc) dc) a)
      by (apply Forall_forall; auto).
    by rewrite (mapM_agree _ (execute_arg (dask_get fuel dc) dc) k)
      by (apply Forall_forall; auto).
  - rewrite Harg. unfold DataCache_load. by rewrite Hdir, Hfiles.
Qed.

Lemma DataCache_record_eq (f : function) (a : list value)
    (k : list (string * value)) (dc : DataCache) :
  DataCache_record f a k dc =
    match mapM processed_arg a dc with
    | (Ok ps, dc1) =>
        match py_call f ps k with
        | Ok r => (Ok r, set_observed (λ o, o ++ [(f_name f, a, k, r)]) dc1)
        | Raise e => (Raise e, dc1)
        end
    | (Raise e, dc1) => (Raise e, dc1)
    end.
Proof.
  unfold DataCache_record. unfold mbind at 1. unfold M_bind at 1.
  destruct (mapM processed_arg a dc) as [[ps|e] dc1]; [|reflexivity].
  unfold mbind, M_bind, lift. destruct (py_call f ps k); reflexivity.
Qed.

Lemma mapM_M_cons {A B : Type} (f : A → M B) (x : A) (l : list A) (dc : DataCache) :
  mapM f (x :: l) dc =
    match f x dc with
    | (Ok y, dc1) =>
        match mapM f l dc1 with
        | (Ok ys, dc2) => (Ok (y :: ys), dc2)
        | (Raise e, dc2) => (Raise e, dc2)
        end
    | (Raise e, dc1) => (Raise e, dc1)
    end.
Proof. done. Qed.

Lemma processed_arg_eq (arg : value) (dc : DataCache) :
  processed_arg arg dc =
    match isinstance_Step arg with
    | Some s => (dask_get (S (size (graph dc))) dc (trail s), log (Got (trail s)) dc)
    | None => (Ok arg, dc)
    end.
Proof. unfold processed_arg. by destruct (isinstance_Step arg). Qed.

Lemma processed_args_resolved (dc : DataCache) (l ps : list value) :
  Forall2 (resolved dc) l ps →
  ∃ dc', mapM processed_arg l dc = (Ok ps, dc')
    ∧ directory dc' = directory dc ∧ graph dc' = graph dc
    ∧ step_graph dc' = step_graph dc ∧ observed dc' = observed dc
    ∧ files dc' = files dc ∧ next_sid dc' = next_sid dc.
Proof.
  intros Hall.
  assert (∀ dc0, directory dc0 = directory dc → graph dc0 = graph dc →
    step_graph dc0 = step_graph dc → observed dc0 = observed dc →
    files dc0 = files dc → next_sid dc0 = next_sid dc →
    ∃ dc', mapM processed_arg l dc0 = (Ok ps, dc')
      ∧ directory dc' = directory dc ∧ graph dc' = graph dc
      ∧ step_graph dc' = step_graph dc ∧ observed dc' = observed dc
      ∧ files dc' = files dc ∧ next_sid dc' = next_sid dc) as Hgen; [|by apply Hgen].
  induction Hall as [|arg p l ps Harg _ IH]; intros dc0 Hd Hg Hs Ho Hf Hn.
  { by exists dc0. }
  unfold resolved in Harg. rewrite mapM_M_cons, processed_arg_eq.
  destruct (isinstance_Step arg) as [s|].
  - unfold Step_get in Harg. simpl in Harg.
    rewrite Hg, (dask_get_reads _ dc dc0), Harg by done.
    destruct (IH (log (Got (trail s)) dc0)) as (dc' & -> & ?); try done.
    by exists dc'.
  - subst p.
    destruct (IH dc0) as (dc' & -> & ?); try done.
    by exists dc'.
Qed.

(** C6, as the code has it.  [record(target, *args, **kwargs)] replaces
    every positional argument that is a Step by the value of its [get()];
    the keyword arguments are passed to [target] as they are.  [target] is
    called directly: the graph, the step registry and the files stay as
    they are.  [(name, args, kwargs, result)], with the arguments as they
    were given, is appended to [observed], and the result is returned. *)
Theorem DataCache_record_positional (dc : DataCache) (target : function)
    (args processed : list value) (kwargs : list (string * value)) (result : value) :
  Forall2 (resolved dc) args processed →
  py_call target processed kwargs = Ok result →
  ∃ dc', DataCache_record target args kwargs dc = (Ok result, dc')
    ∧ observed dc' = observed dc ++ [(f_name target, args, kwargs, result)]
    ∧ graph dc' = graph dc ∧ step_graph dc' = step_graph dc
    ∧ files dc' = files dc.
Proof.
  intros Hargs Hcall.
  destruct (processed_args_resolved dc args processed Hargs)
    as (dc1 & Hloop & _ & Hg & Hs & Ho & Hf & _).
  rewrite DataCache_record_eq, Hloop, Hcall.
  eexists. split; [reflexivity|]. simpl. by rewrite Ho.
Qed.

Lemma summary_line_raises (o : observation) (e : exn) :
  summary_line o = Raise e → e = AttributeError.
Proof.
  destruct o as [[[name a] k] r]. unfold summary_line.
  induction a as [|x a IH] in e |- *; [done|]. simpl.
  destruct (isinstance_Step x); simpl; [congruence|].
  destruct (mapM _ a) as [vs|e'] eqn:Ha; simpl in *; [done|].
  intros [= <-]. by apply IH.
Qed.

Lemma summary_line_Step (name : string) (a : list value)
    (k : list (string * value)) (r : value) :
  Exists (λ x, is_Some (isinstance_Step x)) a →
  summary_line (name, a, k, r) = Raise AttributeError.
Proof.
  intros Hex. destruct (summary_line (name, a, k, r)) as [line|e] eqn:Hline.
  - exfalso. unfold summary_line in Hline.
    destruct (mapM _ a) as [vs|] eqn:Ha; [clear Hline|done].
    induction Hex as [x a [s Hs]|x a _ IH] in vs, Ha |- *; simpl in Ha.
    + by rewrite Hs in Ha.
    + destruct (isinstance_Step x); [done|]. simpl in Ha.
      destruct (mapM _ a) as [vs'|] eqn:Ha'; [|done]. by eapply IH.
  - f_equal. by eapply summary_line_raises.
Qed.

Lemma mapM_result_raises {A B : Type} (f : A → result B) (l : list A) (e : exn) :
  mapM f l = Raise e → ∃ x, x ∈ l ∧ f x = Raise e.
Proof.
  induction l as [|x l IH]; simpl; [done|].
  destruct (f x) as [y|e'] eqn:Hx; simpl.
  - destruct (mapM f l) as [ys|e'] eqn:Hl; simpl; [done|].
    intros [= ->]. destruct IH as (x' & Hin & Hx'); [done|].
    exists x'. split; [by apply elem_of_cons; right | done].
  - intros [= ->]. exists x. split; [by apply elem_of_cons; left | done].
Qed.

Lemma mapM_result_Exists {A B : Type} (f : A → result B) (l : list A) :
  Exists (λ x, ∃ e, f x = Raise e) l → ∃ e, mapM f l = Raise e.
Proof.
  induction 1 as [x l [e Hx] | x l _ [e IH]]; simpl.
  - rewrite Hx. by exists e.
  - destruct (f x) as [y|e']; simpl; [|by exists e'].
    rewrite IH. by exists e.
Qed.

(** C7, at the inputs where the code departs from it: as soon as one
    recorded call had a Step among its positional arguments, [summary()]
    raises [AttributeError] ([a.name] on a Step, which has no attribute
    [name]) instead of rendering the Step by the function name of its
    Trail. *)
Theorem DataCache_summary_Step_raises (dc : DataCache) :
  Exists (λ o : observation, Exists (λ x, is_Some (isinstance_Step x)) o.1.1.2)
         (observed dc) →
  DataCache_summary dc = Raise AttributeError.
Proof.
  intros Hex. unfold DataCache_summary.
  destruct (mapM_result_Exists summary_line (observed dc)) as [e He].
  { eapply Exists_impl; [exact Hex|].
    intros [[[name a] k] r] Ha. exists AttributeError. by apply summary_line_Step. }
  rewrite He. simpl. f_equal.
  apply mapM_result_raises in He as (o & _ & Ho).
  by eapply summary_line_raises.
Qed.

(** ** The fuel of the executor *)

Lemma mapM_result_impl {A B : Type} (f g : A → result B) (l : list A) (ys : list B) :
  Forall (λ x, ∀ y, f x = Ok y → g x = Ok y) l →
  mapM f l = Ok ys → mapM g l = Ok ys.
Proof.
  intros Hall. revert ys. induction Hall as [|x l Hx _ IH]; intros ys; simpl; [done|].
  destruct (f x) as [y|e] eqn:Hfx; simpl; [|done].
  destruct (mapM f l) as [ys'|e] eqn:Hl; simpl; [|done].
  intros [= <-]. by rewrite (Hx y eq_refl), (IH ys' eq_refl).
Qed.

Lemma execute_task_impl (get get' : Call → result value) (dc : DataCache)
    (t : task) (v : value) :
  (∀ c y, is_Some (graph dc !! c) → get c = Ok y → get' c = Ok y) →
  execute_task get dc t = Ok v → execute_task get' dc t = Ok v.
Proof.
  intros Hget.
  assert (∀ x y, execute_arg get dc x = Ok y → execute_arg get' dc x = Ok y) as Harg.
  { intros x y. unfold execute_arg. destruct (isinstance_Call x) as [c|]; [|done].
    destruct (decide (is_Some (graph dc !! c))); [by apply Hget | done]. }
  destruct t as [f a k|name]; unfold execute_task.
  - destruct (mapM (execute_arg get dc) a) as [a'|e] eqn:Ha; simpl; [|done].
    destruct (mapM (execute_arg get dc) k) as [k'|e] eqn:Hk; simpl; [|done].
    rewrite (mapM_result_impl (execute_arg get dc) (execute_arg get' dc) a a'),
      (mapM_result_impl (execute_arg get dc) (execute_arg get' dc) k k');
      try done; apply Forall_forall; auto.
  - destruct (execute_arg get dc name) as [name'|e] eqn:Hn; simpl; [|done].
    by rewrite (Harg name name').
Qed.

(** A value that the executor returns is returned with any larger fuel. *)
Lemma dask_get_S_Ok (fuel : nat) (dc : DataCache) (key : Call) (v : value) :
  dask_get fuel dc key = Ok v → dask_get (S fuel) dc key = Ok v.
Proof.
  revert key v. induction fuel as [|fuel IH]; intros key v; [done|].
  rewrite (dask_get_S (S fuel)), (dask_get_S fuel).
  destruct (graph dc !! key) as [t|]; [|done].
  apply execute_task_impl. intros c y _. apply IH.
Qed.

Lemma dask_get_le_Ok (n m : nat) (dc : DataCache) (key : Call) (v : value) :
  (n ≤ m)%nat → dask_get n dc key = Ok v → dask_get m dc key = Ok v.
Proof. induction 1; [done|]. intros. by apply dask_get_S_Ok; auto. Qed.

Lemma elem_of_evaluated (fuel : nat) (dc : DataCache) (key : Call) :
  key ∈ evaluated fuel dc ↔ evaluates fuel dc key.
Proof.
  unfold evaluated. rewrite elem_of_filter, elem_of_dom. split; [by intros [? _]|].
  intros Hev. split; [done|]. destruct Hev as [v Hv].
  destruct fuel as [|fuel]; [done|]. rewrite dask_get_S in Hv.
  by destruct (graph dc !! key).
Qed.

Lemma evaluated_mono (fuel : nat) (dc : DataCache) :
  evaluated fuel dc ⊆ evaluated (S fuel) dc.
Proof.
  intros key. rewrite !elem_of_evaluated. intros [v Hv]. exists v.
  by apply dask_get_S_Ok.
Qed.

(** Once one more unit of fuel evaluates no further key, no fuel does. *)
Lemma evaluated_stable (k : nat) (dc : DataCache) (key : Call) (v : value) :
  evaluated k dc = evaluated (S k) dc →
  dask_get (S (S k)) dc key = Ok v → dask_get (S k) dc key = Ok v.
Proof.
  intros Hstable. rewrite (dask_get_S (S k)), (dask_get_S k).
  destruct (graph dc !! key) as [t|]; [|done].
  apply execute_task_impl. intros c y _ Hc.
  assert (c ∈ evaluated k dc) as [y' Hy']%elem_of_evaluated.
  { rewrite Hstable. apply elem_of_evaluated. by exists y. }
  pose proof (dask_get_S_Ok _ _ _ _ Hy') as Hy''.
  rewrite Hc in Hy''. by injection Hy'' as ->.
Qed.

Lemma evaluated_stable_forever (k m : nat) (dc : DataCache) (key : Call) (v : value) :
  evaluated k dc = evaluated (S k) dc →
  dask_get (m + S k) dc key = Ok v → dask_get (S k) dc key = Ok v.
Proof.
  intros Hstable. revert key v.
  assert (∀ j, evaluated (j + k) dc = evaluated (S (j + k)) dc) as Hall.
  { induction j as [|j IH]; [done|].
    apply set_eq. intros c. split; [apply evaluated_mono|].
    rewrite !elem_of_evaluated. intros [y Hy]. exists y.
    by apply (evaluated_stable (j + k)). }
  induction m as [|m IH]; intros key v; [done|].
  intros Hv. apply IH.
  replace (m + S k)%nat with (S (m + k)) by lia.
  apply (evaluated_stable (m + k)); [by apply Hall|].
  by replace (S (S (m + k))) with (S m + S k)%nat by lia.
Qed.

(** Either the evaluated keys have stopped growing, or there are at
    least as many of them as units of fuel. *)
Lemma evaluated_grows (k : nat) (dc : DataCache) :
  (∃ j, (j < k)%nat ∧ evaluated j dc = evaluated (S j) dc)
  ∨ (k ≤ size (evaluated k dc))%nat.
Proof.
  induction k as [|k [(j & Hj & Hstable)|Hsize]].
  - right. lia.
  - left. exists j. split; [lia | done].
  - destruct (decide (evaluated k dc = evaluated (S k) dc)) as [Heq|Hne].
    + left. exists k. split; [lia | done].
    + right. assert (evaluated k dc ⊂ evaluated (S k) dc) as Hlt%subset_size.
      { split; [apply evaluated_mono|]. intros Hsub. apply Hne.
        apply set_eq. intros c. split; [apply evaluated_mono | apply Hsub]. }
      lia.
Qed.

(** The fuel of [Step.get] suffices: what the executor returns with any
    fuel, it returns with one more unit than the graph has keys. *)
Lemma dask_get_fuel_enough (n : nat) (dc : DataCache) (key : Call) (v : value) :
  dask_get n dc key = Ok v →
  dask_get (S (size (graph dc))) dc key = Ok v.
Proof.
  intros Hv.
  destruct (evaluated_grows (S (size (graph dc))) dc) as [(j & Hj & Hstable)|Hsize].
  - apply (dask_get_le_Ok (S j)); [lia|].
    destruct (decide (n ≤ S j)%nat) as [Hle|Hgt].
    + by apply (dask_get_le_Ok n).
    + apply (evaluated_stable_forever j (n - S j)); [done|].
      by replace (n - S j + S j)%nat with n by lia.
  - assert (size (evaluated (S (size (graph dc))) dc) ≤ size (graph dc))%nat.
    { rewrite <-size_dom. apply subseteq_size.
      unfold evaluated. intros c. rewrite elem_of_filter. by intros [_ ?]. }
    lia.
Qed.

(** ** Keyword arguments *)

Lemma Step_get_eq (self : Step) (dc : DataCache) :
  (Step_get self dc).1 = dask_get (S (size (graph dc))) dc (trail self).
Proof. done. Qed.

(** C4, at the inputs where the code departs from it.  The entry that
    [recompute()] installs holds [list(self.kwargs)], the keys without the
    values.  So for a Step created with the keyword argument [x=v],
    [get()] raises [ValueError] in [dict(kwargs)], and for a Step created
    with [ab=v] it calls the target with the keyword argument [a='b']: in
    both cases the supplied value [v] does not reach the target. *)
Theorem recompute_keeps_keys_only (dc : DataCache) (f : function)
    (a : list value) (v : value) :
  (∀ k : list (string * value), ∃ (s : Step) (dc' : DataCache),
     DataCache_step f a k dc = (Ok s, dc')
     ∧ graph dc' !! trail s = Some (Task_apply_with_kwargs f a (dict_keys k)))
  ∧ (∃ (s : Step) (dc' : DataCache),
       DataCache_step f [] [("x", v)] dc = (Ok s, dc')
       ∧ (Step_get s dc').1 = Raise ValueError)
  ∧ (∃ (s : Step) (dc' : DataCache),
       DataCache_step f [] [("ab", v)] dc = (Ok s, dc')
       ∧ (Step_get s dc').1 = py_call f [] [("a", VStr "b")]).
Proof.
  split_and!.
  - intros k. unfold DataCache_step. rewrite Step_init_eq.
    eexists _, _. split; [reflexivity|]. apply lookup_insert_eq.
  - unfold DataCache_step. rewrite Step_init_eq.
    eexists _, _. split; [reflexivity|].
    rewrite Step_get_eq, dask_get_S.
    cbn [graph trail]. by rewrite lookup_insert_eq.
  - unfold DataCache_step. rewrite Step_init_eq.
    eexists _, _. split; [reflexivity|].
    rewrite Step_get_eq, dask_get_S.
    cbn [graph trail]. rewrite lookup_insert_eq.
    unfold execute_task, fresh_task, apply_with_kwargs. simpl.
    by destruct (py_call f [] [("a", VStr "b")]).
Qed.

(** X21. Without keyword arguments, [previous()] yields the registered
    Steps of the Trails among the positional arguments, in their order,
    and ends normally. *)
Lemma Step_previous_positional (dc : DataCache) (self : Step) :
  kwargs (trail self) = [] →
  Forall (λ a, ∀ c, isinstance_Call a = Some c → is_Some (step_graph dc !! c))
         (args (trail self)) →
  Step_previous dc self =
    mkGenerator
      (omap (λ a, match isinstance_Call a with
                  | Some c => step_graph dc !! c
                  | None => None
                  end) (args (trail self)))
      None.
Proof.
  intros Hk Hall. unfold Step_previous. rewrite Hk. simpl.
  induction Hall as [|a l Ha _ IH]; simpl; [done|].
  destruct (isinstance_Call a) as [c|]; [|done].
  destruct (Ha c eq_refl) as [p Hp]. rewrite Hp, IH. done.
Qed.

(** C5, at the inputs where the code departs from it.  The second loop
    of [previous()] iterates over the mapping [self.trail.kwargs], that
    is over its keys, and unpacks each key into [k, v].  A Step whose
    only dependency is the keyword argument [x=t], for a Trail [t], has
    [has_deps()] true and a [previous()] that yields nothing and raises
    [ValueError]; with the keyword [ab=t], [previous()] yields nothing
    and ends normally. *)
Theorem previous_misses_keyword_dependency (dc : DataCache) (g : function) (t : Call) :
  (∃ (s : Step) (dc' : DataCache),
     DataCache_step g [] [("x", Call_value t)] dc = (Ok s, dc')
     ∧ Step_has_deps s = true
     ∧ Step_previous dc' s = mkGenerator [] (Some ValueError))
  ∧ (∃ (s : Step) (dc' : DataCache),
       DataCache_step g [] [("ab", Call_value t)] dc = (Ok s, dc')
       ∧ Step_has_deps s = true
       ∧ Step_previous dc' s = mkGenerator [] None).
Proof.
  split; unfold DataCache_step; rewrite Step_init_eq;
    eexists _, _; (split; [reflexivity|]); by destruct t.
Qed.

(** ** [Step.hash] *)

Lemma reachable_wf (dc : DataCache) (steps : list Step) :
  reachable dc steps → step_graph_wf dc.
Proof.
  assert (Hinit : ∀ (dc dc' : DataCache) t f a k (self : Step),
    step_graph_wf dc → Step_init t f a k dc = (Ok self, dc') → step_graph_wf dc').
  { intros dc0 dc' t f a k self Hwf. rewrite Step_init_eq. intros [= <- <-] c p.
    cbn [step_graph]. rewrite lookup_insert.
    case_decide as Hc; [by intros [= <-] | by apply Hwf]. }
  assert (Hkeep : ∀ dc dc' : DataCache,
    step_graph_wf dc → step_graph dc' = step_graph dc → step_graph_wf dc').
  { intros dc0 dc' Hwf Heq c p. rewrite Heq. by apply Hwf. }
  induction 1 as
    [ directory fs
    | dc steps f a k self dc' _ IH Hop
    | dc steps parent f a k self dc' _ IH _ Hop
    | dc steps t f a k self dc' _ IH Hop
    | dc steps self r dc' _ IH Hself Hop
    | dc steps self r dc' _ IH Hself Hop
    | dc steps self recompute r dc' _ IH Hself Hop
    | dc steps f a k r dc' _ IH Hop
    | dc steps name v r dc' _ IH Hop
    | dc steps name h r dc' _ IH Hop ].
  - by intros c p.
  - by eapply Hinit.
  - by eapply Hinit.
  - by eapply Hinit.
  - eapply Hkeep; [done|]. by apply Step_recompute_touches in Hop as [? _].
  - eapply Hkeep; [done|]. by apply Step_get_touches in Hop as [? _].
  - eapply Hkeep; [done|]. by apply Step_checkpoint_touches in Hop as [? _].
  - eapply Hkeep; [done|]. by apply DataCache_record_keeps in Hop as (_ & ? & _).
  - by injection Hop as _ <-.
  - by injection Hop as _ <-.
Qed.

(** The loop over the keys of [self.trail.kwargs] never yields, and it
    can only end by the [ValueError] of the unpacking. *)
Lemma previous_kwargs_keys (sg : gmap Call Step) (kvs : list (string * value)) :
  yields (previous_kwargs sg (map (λ kv, VStr kv.1) kvs)) = []
  ∧ (raised (previous_kwargs sg (map (λ kv, VStr kv.1) kvs)) = None
     ∨ raised (previous_kwargs sg (map (λ kv, VStr kv.1) kvs)) = Some ValueError).
Proof.
  induction kvs as [|[key v] kvs IH]; simpl; [by auto|].
  destruct key as [|c1 [|c2 [|c3 key]]]; simpl; auto.
Qed.

Lemma previous_args_yields (sg : gmap Call Step) (l : list value)
    (rest : generator Step) (p : Step) :
  p ∈ yields (previous_args sg l rest) →
  (∃ c, Call_value c ∈ l ∧ sg !! c = Some p) ∨ p ∈ yields rest.
Proof.
  induction l as [|a l IH]; simpl; [by right|].
  destruct (isinstance_Call a) as [c|] eqn:Ha.
  - assert (a = Call_value c) as ->.
    { destruct a; try done. by injection Ha as <-. }
    destruct (sg !! c) as [q|] eqn:Hq; simpl.
    + intros [->|Hin]%elem_of_cons.
      * left. exists c. split; [by apply elem_of_cons; left | done].
      * destruct (IH Hin) as [(c' & Hc' & Hp)|?]; [left|by right].
        exists c'. split; [by apply elem_of_cons; right | done].
    + by intros ?%elem_of_nil.
  - intros Hin. destruct (IH Hin) as [(c' & Hc' & Hp)|?]; [left|by right].
    exists c'. split; [by apply elem_of_cons; right | done].
Qed.

Lemma previous_args_raised (sg : gmap Call Step) (l : list value)
    (rest : generator Step) (e : exn) :
  raised (previous_args sg l rest) = Some e →
  e = KeyError ∨ raised rest = Some e.
Proof.
  induction l as [|a l IH]; simpl; [by right|].
  destruct (isinstance_Call a) as [c|]; [|done].
  destruct (sg !! c) as [q|]; simpl; [done|].
  intros [= <-]. by left.
Qed.

(** What [previous()] yields sits strictly deeper in the Trail. *)
Lemma Step_previous_depth (dc : DataCache) (self p : Step) :
  step_graph_wf dc →
  p ∈ yields (Step_previous dc self) →
  (value_depth (Call_value (trail p)) < value_depth (Call_value (trail self)))%nat.
Proof.
  intros Hwf Hin. unfold Step_previous in Hin.
  apply previous_args_yields in Hin as [(c & Hc & Hp)|Hin].
  - rewrite (Hwf c p Hp).
    assert (value_depth (Call_value c) ≤ list_max (map value_depth (args (trail self))))%nat.
    { apply list_max_elem, list_elem_of_fmap. by exists (Call_value c). }
    remember (value_depth (Call_value c)) as d. simpl.
    apply Nat.lt_succ_r. etrans; [done | apply Nat.le_max_l].
  - simpl in Hin.
    destruct (previous_kwargs_keys (step_graph dc) (kwargs (trail self))) as [Hy _].
    rewrite Hy in Hin. by apply elem_of_nil in Hin.
Qed.

Lemma Step_hash_fuel_S (fuel : nat) (dc : DataCache) (self : Step) :
  Step_hash_fuel (S fuel) dc self =
    previous_hash ←
      (if Step_has_deps self then
         hs ← mapM (Step_hash_fuel fuel dc) (yields (Step_previous dc self));
         match raised (Step_previous dc self) with
         | Some e => Raise e
         | None => Ok (String.concat "" hs)
         end
       else Ok "");
    Ok (previous_hash +:+ joblib_hash (uniquity self)).
Proof. done. Qed.

(** More fuel than the nesting depth of the Trail changes nothing. *)
Lemma Step_hash_fuel_stable (dc : DataCache) (n m : nat) (self : Step) :
  step_graph_wf dc →
  (value_depth (Call_value (trail self)) < n)%nat →
  (value_depth (Call_value (trail self)) < m)%nat →
  Step_hash_fuel n dc self = Step_hash_fuel m dc self.
Proof.
  intros Hwf. revert m self.
  induction n as [|n IH]; intros m self Hn Hm; [lia|].
  destruct m as [|m]; [lia|].
  rewrite !Step_hash_fuel_S.
  rewrite (mapM_agree (Step_hash_fuel n dc) (Step_hash_fuel m dc)); [done|].
  apply Forall_forall. intros p Hp.
  pose proof (Step_previous_depth dc self p Hwf Hp).
  apply IH; lia.
Qed.

Lemma Step_hash_fuel_enough (dc : DataCache) (n : nat) (self : Step) :
  step_graph_wf dc →
  (value_depth (Call_value (trail self)) < n)%nat →
  Step_hash_fuel n dc self = Step_hash dc self.
Proof.
  intros Hwf Hn. unfold Step_hash. apply Step_hash_fuel_stable; [done|done|lia].
Qed.

(** [Step.hash] as the source states it: the hashes of the Steps that
    [previous()] yields, by the same function, joined in that order (the
    empty string when [has_deps()] is false), followed by
    [joblib.hash(uniquity)]. *)
Lemma Step_hash_eq (dc : DataCache) (self : Step) :
  step_graph_wf dc →
  Step_hash dc self =
    previous_hash ←
      (if Step_has_deps self then
         hs ← mapM (Step_hash dc) (yields (Step_previous dc self));
         match raised (Step_previous dc self) with
         | Some e => Raise e
         | None => Ok (String.concat "" hs)
         end
       else Ok "");
    Ok (previous_hash +:+ joblib_hash (uniquity self)).
Proof.
  intros Hwf. unfold Step_hash at 1. rewrite Step_hash_fuel_S.
  rewrite (mapM_agree (Step_hash_fuel _ dc) (Step_hash dc)); [done|].
  apply Forall_forall. intros p Hp.
  apply Step_hash_fuel_enough; [done|]. by apply (Step_previous_depth dc).
Qed.

(** The recursion of [hash()] ends: the bound on its depth is never hit. *)
Lemma Step_hash_terminates (dc : DataCache) (self : Step) :
  step_graph_wf dc → Step_hash dc self ≠ Raise RecursionError.
Proof.
  intros Hwf.
  assert (∀ n self, (value_depth (Call_value (trail self)) < n)%nat →
            Step_hash_fuel n dc self ≠ Raise RecursionError) as Hgen.
  { clear self. induction n as [|n IH]; intros self Hn; [lia|].
    rewrite Step_hash_fuel_S.
    destruct (Step_has_deps self); [|done].
    destruct (mapM (Step_hash_fuel n dc) (yields (Step_previous dc self)))
      as [hs|e] eqn:Hhs; simpl.
    - destruct (raised (Step_previous dc self)) as [e|] eqn:He; [|done]. simpl.
      unfold Step_previous in He.
      apply previous_args_raised in He as [->|He]; [done|]. simpl in He.
      destruct (previous_kwargs_keys (step_graph dc) (kwargs (trail self)))
        as [_ [Hr|Hr]]; rewrite Hr in He; by simplify_eq.
    - apply mapM_result_raises in Hhs as (p & Hp & Hraise).
      intros [= ->]. apply (IH p); [|done].
      pose proof (Step_previous_depth dc self p Hwf Hp). lia. }
  apply Hgen. lia.
Qed.

(** *** Propagation along positional dependencies *)

Lemma string_length_app (s t : string) :
  String.length (s +:+ t) = (String.length s + String.length t)%nat.
Proof.
  induction s as [|c s IH]; [done|].
  change (String c s +:+ t) with (String c (s +:+ t)). simpl. by rewrite IH.
Qed.

Lemma string_app_inv_tail (s s' t : string) : s +:+ t = s' +:+ t → s = s'.
Proof.
  revert s'. induction s as [|c s IH]; intros [|c' s'] Heq; [done| | |].
  - apply (f_equal String.length) in Heq.
    change (String c' s' +:+ t) with (String c' (s' +:+ t)) in Heq.
    change ("" +:+ t) with t in Heq.
    simpl in Heq. rewrite string_length_app in Heq. lia.
  - apply (f_equal String.length) in Heq.
    change (String c s +:+ t) with (String c (s +:+ t)) in Heq.
    change ("" +:+ t) with t in Heq.
    simpl in Heq. rewrite string_length_app in Heq. lia.
  - change (String c s +:+ t) with (String c (s +:+ t)) in Heq.
    change (String c' s' +:+ t) with (String c' (s' +:+ t)) in Heq.
    injection Heq as -> Heq. f_equal. by apply IH.
Qed.

Lemma map_const_value_inj (l l' : list const) :
  map const_value l = map const_value l' → l = l'.
Proof.
  revert l'. induction l as [|c l IH]; intros [|c' l'] Heq; try done.
  simpl in Heq. injection Heq as Hc Hl. f_equal; [|by apply IH].
  by destruct c, c'; simplify_eq/=.
Qed.

(** X23. A Step without dependencies: another bytecode or other
    constants give another hash, as far as [joblib.hash] tells its inputs
    apart. *)
Lemma Step_hash_code (dc dc' : DataCache) (s s' : Step) :
  Inj (=) (=) joblib_hash →
  step_graph_wf dc → step_graph_wf dc' →
  Step_has_deps s = false → Step_has_deps s' = false →
  (co_code (target s), co_consts (target s))
    ≠ (co_code (target s'), co_consts (target s')) →
  Step_hash dc s ≠ Step_hash dc' s'.
Proof.
  intros Hinj Hwf Hwf' Hdeps Hdeps' Hcode.
  rewrite !Step_hash_eq, Hdeps, Hdeps' by done. simpl.
  intros [= Heq%Hinj]. apply Hcode.
  unfold uniquity in Heq.
  assert (VBytes (co_code (target s)) = VBytes (co_code (target s'))
          ∧ VTuple (map const_value (co_consts (target s)))
            = VTuple (map const_value (co_consts (target s')))) as [Hc Hk].
  { by injection Heq as _ _ _ _ _ -> ->. }
  injection Hc as ->. injection Hk as ->%map_const_value_inj. done.
Qed.

(** X22. A Step with one positional dependency: when the hash of the
    dependency changes, the hash of the Step changes. *)
Lemma Step_hash_downstream (dc dc' : DataCache) (s s' p p' : Step) (h h' : string) :
  step_graph_wf dc → step_graph_wf dc' →
  Step_has_deps s = true → Step_has_deps s' = true →
  Step_previous dc s = mkGenerator [p] None →
  Step_previous dc' s' = mkGenerator [p'] None →
  uniquity s = uniquity s' →
  Step_hash dc p = Ok h → Step_hash dc' p' = Ok h' → h ≠ h' →
  Step_hash dc s ≠ Step_hash dc' s'.
Proof.
  intros Hwf Hwf' Hdeps Hdeps' Hprev Hprev' Hu Hh Hh' Hne.
  rewrite !Step_hash_eq, Hdeps, Hdeps', Hprev, Hprev', Hu by done. simpl.
  rewrite Hh, Hh'. simpl.
  intros [= Heq]. by apply string_app_inv_tail in Heq.
Qed.

(** C2, at the inputs where the code departs from it.  Let the Step
    [s = cache.step(g, ab=dep.trail)] depend on [dep = cache.step(f, *a)]
    through a keyword argument.  [hash()] of [s] is the digest of its own
    tuple with nothing before it, although [has_deps()] is true; so it is
    the same whatever the code of the upstream function is.  With the
    keyword [x] in place of [ab], [hash()] raises [ValueError]. *)
Theorem hash_misses_keyword_dependency (dc : DataCache) (g : function)
    (a : list value) (name code code' : string) (consts consts' : list const)
    (i i' : nat) :
  let downstream (f : function) (key : string) : result string :=
    match DataCache_step f a [] dc with
    | (Ok dep, dc1) =>
        match DataCache_step g [] [(key, Call_value (trail dep))] dc1 with
        | (Ok s, dc2) => Step_hash dc2 s
        | (Raise e, _) => Raise e
        end
    | (Raise e, _) => Raise e
    end in
  let f := Function i name code consts in
  let f' := Function i' name code' consts' in
  downstream f "ab" =
    Ok (joblib_hash (VTuple [VCall (f_name g) [] [("ab", VCall name a [])]; VTuple [];
                             VDict [("ab", VCall name a [])];
                             VBytes (co_code g);
                             VTuple (map const_value (co_consts g))]))
  ∧ downstream f' "ab" = downstream f "ab"
  ∧ downstream f "x" = Raise ValueError.
Proof.
  intros downstream f f'. unfold downstream, DataCache_step.
  rewrite !Step_init_eq. cbv beta iota zeta. unfold Step_hash.
  rewrite !Step_hash_fuel_S. unfold Step_previous. cbn. done.
Qed.

End properties.

(** * Further properties of [core.py] *)

Section further.
Context `{Runtime}.

(** ** The artifact store *)


(** ** [Step.checkpoint], continued *)

Lemma Step_get_cached (dc : DataCache) (self : Step) :
  graph dc !! trail self = Some (cached_task self) →
  (Step_get self dc).1 = DataCache_load dc (store_name self).
Proof.
  intros Hgraph. rewrite Step_get_eq, dask_get_S, Hgraph. done.
Qed.

(** X2. The checkpoint round trip: after a [checkpoint()] that
    recomputed, [get()] returns the value that the recomputation
    returned, read from the artifact file.  The artifact file and the
    hash file of the Step have to be different files. *)
Theorem checkpoint_get_round_trip (dc dc1 dc2 : DataCache) (self : Step)
    (recompute : bool) (h : string) (stored : option string) (result : value) :
  Step_hash dc self = Ok h →
  DataCache_load_hash dc (Call_value (trail self)) = Ok stored →
  stored ≠ Some h ∨ recompute = true →
  Step_recompute self dc = (Ok (), dc1) →
  Step_get self dc1 = (Ok result, dc2) →
  store_file dc self ≠ hash_file dc self →
  ∃ dc3, Step_checkpoint self recompute dc = (Ok self, dc3)
    ∧ (Step_get self dc3).1 = Ok result.
Proof.
  intros Hhash Hstored Hstale Hre Hget Hfiles.
  rewrite (Step_checkpoint_stale dc dc1 dc2 self recompute h stored result) by done.
  eexists. split; [reflexivity|].
  rewrite Step_get_cached by apply lookup_insert_eq.
  unfold DataCache_load, checkpointed. cbn [directory files].
  fold (store_file dc self).
  by rewrite lookup_insert_ne, lookup_insert_eq by done.
Qed.

(** X3. When [get()] raises during a [checkpoint()], the exception
    leaves [checkpoint()]; no artifact and no hash have been written, and
    the graph entry of the Step is the entry of [recompute()], not the
    load entry: the next [checkpoint()] finds the same stored hash. *)
Theorem checkpoint_get_raises (dc dc1 dc2 : DataCache) (self : Step)
    (recompute : bool) (h : string) (stored : option string) (e : exn) :
  Step_hash dc self = Ok h →
  DataCache_load_hash dc (Call_value (trail self)) = Ok stored →
  stored ≠ Some h ∨ recompute = true →
  Step_recompute self dc = (Ok (), dc1) →
  Step_get self dc1 = (Raise e, dc2) →
  ∃ dc3, Step_checkpoint self recompute dc = (Raise e, dc3)
    ∧ files dc3 = files dc
    ∧ graph dc3 = <[trail self := fresh_task self]> (graph dc)
    ∧ step_graph dc3 = step_graph dc
    ∧ DataCache_load_hash dc3 (Call_value (trail self)) = Ok stored.
Proof.
  intros Hhash Hstored Hstale Hre Hget.
  unfold Step_checkpoint, mbind, M_bind. rewrite Hhash, Hstored.
  assert (bool_decide (Some h ≠ stored) || recompute = true) as ->.
  { destruct Hstale as [Hne | ->]; [|by rewrite orb_true_r].
    rewrite bool_decide_eq_true_2; [done | congruence]. }
  rewrite Hre, Hget.
  unfold Step_recompute, modify in Hre. injection Hre as <-.
  unfold Step_get in Hget. injection Hget as _ <-.
  eexists. split; [reflexivity|]. split_and!; try done.
Qed.


(** X5. [recompute()] undoes the rewiring of [checkpoint()]: after a
    [checkpoint()] that returned, [recompute()] leaves the graph that
    [recompute()] leaves without the checkpoint; and a second
    [recompute()] changes nothing in the graph. *)
Theorem recompute_undoes_checkpoint (dc dc1 : DataCache) (self : Step)
    (recompute : bool) :
  Step_checkpoint self recompute dc = (Ok self, dc1) →
  graph (Step_recompute self dc1).2 = graph (Step_recompute self dc).2
  ∧ graph (Step_recompute self dc1).2 !! trail self = Some (fresh_task self)
  ∧ graph (Step_recompute self (Step_recompute self dc).2).2
    = graph (Step_recompute self dc).2.
Proof.
  intros Hcp. apply Step_checkpoint_touches in Hcp as [_ Hgraph].
  unfold Step_recompute, modify. cbn [snd graph log set_graph].
  split_and!.
  - destruct Hgraph as [-> | [t ->]]; [done | by rewrite insert_insert_eq].
  - apply lookup_insert_eq.
  - by rewrite insert_insert_eq.
Qed.

(** ** [Step.get] and [apply_with_kwargs] *)

(** One unit of fuel per key of the graph is already enough. *)
Lemma dask_get_size_enough (n : nat) (dc : DataCache) (key : Call) (v : value) :
  dask_get n dc key = Ok v → dask_get (size (graph dc)) dc key = Ok v.
Proof.
  intros Hv.
  destruct (evaluated_grows (S (size (graph dc))) dc) as [(j & Hj & Hstable)|Hsize].
  - assert (dask_get (S j) dc key = Ok v) as Hsj.
    { destruct (decide (n ≤ S j)%nat) as [Hle|Hgt].
      - by apply (dask_get_le_Ok n).
      - apply (evaluated_stable_forever j (n - S j)); [done|].
        by replace (n - S j + S j)%nat with n by lia. }
    assert (key ∈ evaluated j dc) as [y Hy]%elem_of_evaluated.
    { rewrite Hstable. apply elem_of_evaluated. by exists v. }
    pose proof (dask_get_S_Ok _ _ _ _ Hy) as Hy'. rewrite Hsj in Hy'.
    injection Hy' as ->. apply (dask_get_le_Ok j); [lia | done].
  - assert (size (evaluated (S (size (graph dc))) dc) ≤ size (graph dc))%nat.
    { rewrite <-size_dom. apply subseteq_size.
      unfold evaluated. intros c. rewrite elem_of_filter. by intros [_ ?]. }
    lia.
Qed.

Lemma execute_literals (get : Call → result value) (dc : DataCache) (l : list value) :
  Forall (λ a, isinstance_Call a = None) l →
  mapM (execute_arg get dc) l = Ok l.
Proof.
  induction 1 as [|a l Ha _ IH]; simpl; [done|].
  assert (execute_arg get dc a = Ok a) as -> by (unfold execute_arg; by rewrite Ha).
  simpl. by rewrite IH.
Qed.

Lemma Step_get_literal (dc : DataCache) (s : Step) :
  graph dc !! trail s = Some (fresh_task s) →
  Forall (λ x, isinstance_Call x = None) (step_args s) →
  step_kwargs s = [] →
  (Step_get s dc).1 = py_call (target s) (step_args s) [].
Proof.
  intros Hs Hlit Hkw. rewrite Step_get_eq, dask_get_S, Hs.
  unfold fresh_task, execute_task. rewrite Hkw.
  by rewrite (execute_literals _ _ (step_args s) Hlit).
Qed.


(** X7. Chaining composes: for a Step [s] whose first positional
    argument is the Trail of a Step [p] of the graph and whose other
    arguments are literals, with no keyword arguments, [s.get()] is the
    call of the target of [s] on the value of [p.get()] and the literals. *)
Theorem get_chained (dc : DataCache) (p s : Step) (lits : list value) (v : value) :
  graph dc !! trail s = Some (fresh_task s) →
  step_args s = Call_value (trail p) :: lits →
  Forall (λ x, isinstance_Call x = None) lits →
  step_kwargs s = [] →
  (Step_get p dc).1 = Ok v →
  (Step_get s dc).1 = py_call (target s) (v :: lits) [].
Proof.
  intros Hs Hargs Hlits Hkw Hp.
  rewrite Step_get_eq in Hp. apply dask_get_size_enough in Hp.
  assert (is_Some (graph dc !! trail p)) as Hin.
  { destruct (size (graph dc)) as [|n]; [done|]. rewrite dask_get_S in Hp.
    by destruct (graph dc !! trail p). }
  assert (execute_arg (dask_get (size (graph dc)) dc) dc (Call_value (trail p)) = Ok v)
    as Hfirst.
  { unfold execute_arg. rewrite isinstance_Call_value.
    by destruct (decide (is_Some (graph dc !! trail p))). }
  rewrite Step_get_eq, dask_get_S, Hs.
  unfold fresh_task, execute_task. rewrite Hargs, Hkw.
  change (mapM ?f (?x :: ?l)) with (y ← f x; ys ← mapM f l; mret (y :: ys)).
  by rewrite Hfirst, (execute_literals _ _ lits Hlits).
Qed.

Lemma dict_setitem_fresh (k v : value) (d : list (value * value)) :
  k ∉ d.*1 → dict_setitem k v d = d ++ [(k, v)].
Proof.
  induction d as [|[k' v'] d IH]; simpl; [done|].
  intros Hnotin. apply not_elem_of_cons in Hnotin as [Hne Hnotin].
  destruct (decide (k = k')); [done|]. by rewrite IH.
Qed.

Lemma py_dict_from_items (d : list (value * value)) (kw : list (string * value)) :
  NoDup (d.*1 ++ map (λ kv, VStr kv.1) kw) →
  py_dict_from d (map (λ kv : string * value, VTuple [VStr kv.1; kv.2]) kw)
  = Ok (d ++ map (λ kv : string * value, (VStr kv.1, kv.2)) kw).
Proof.
  revert d. induction kw as [|[k v] kw IH]; intros d Hnodup; simpl.
  { by rewrite app_nil_r. }
  simpl in Hnodup. apply NoDup_app in Hnodup as (Hd & Hdisj & Hkw).
  apply NoDup_cons in Hkw as [Hk Hkw].
  rewrite dict_setitem_fresh.
  - rewrite IH; [by rewrite <-app_assoc|].
    rewrite fmap_app. simpl. rewrite <-app_assoc. simpl.
    apply NoDup_app. split_and!; [done| |by apply NoDup_cons].
    intros x Hx. apply Hdisj. exact Hx.
  - intros Hin. apply (Hdisj _ Hin). apply elem_of_cons. by left.
Qed.

(** X8. [apply_with_kwargs(function, args, kwargs)] on a list [kwargs] of
    key/value pairs with different keys calls [function( *args, **kw)]
    with exactly those keyword arguments, in their order. *)
Theorem apply_with_kwargs_items (f : function) (a : list value)
    (kw : list (string * value)) :
  NoDup kw.*1 →
  apply_with_kwargs f a (map (λ kv : string * value, VTuple [VStr kv.1; kv.2]) kw)
  = py_call f a kw.
Proof.
  intros Hnodup. unfold apply_with_kwargs, py_dict.
  rewrite py_dict_from_items; cycle 1.
  { simpl. clear -Hnodup. induction kw as [|[k v] kw IH]; simpl; [constructor|].
    simpl in Hnodup. apply NoDup_cons in Hnodup as [Hk Hkw].
    apply NoDup_cons. split; [|by apply IH].
    intros Hin. apply Hk. apply list_elem_of_fmap in Hin as ([k' v'] & [= ->] & Hin).
    apply list_elem_of_fmap. by exists (k', v'). }
  simpl.
  assert (keywords (map (λ kv : string * value, (VStr kv.1, kv.2)) kw) = Ok kw) as ->.
  { unfold keywords. clear. induction kw as [|[k v] kw IH]; simpl; [done|].
    by rewrite IH. }
  simpl. by destruct (py_call f a kw).
Qed.

(** ** [record] and [summary], continued *)

Lemma processed_args_no_Step (l : list value) (dc : DataCache) :
  Forall (λ a, isinstance_Step a = None) l →
  mapM processed_arg l dc = (Ok l, dc).
Proof.
  induction 1 as [|a l Ha _ IH]; [done|].
  rewrite mapM_M_cons, processed_arg_eq, Ha, IH. done.
Qed.

(** X9. [Step.record()] on a chained Step does not evaluate the parent:
    the Step that [parent.step(g, *lits, **kw)] constructs holds the
    Trail of the parent as its first argument, a Trail is not a Step, and
    so [record()] calls [g] with the Trail itself, followed by the other
    arguments as they are. *)
Theorem Step_record_chained (dc : DataCache) (parent : Step) (g : function)
    (lits : list value) (kw : list (string * value)) :
  Forall (λ a, isinstance_Step a = None) lits →
  ∃ (s : Step) (dc' : DataCache),
    Step_step parent g lits kw dc = (Ok s, dc')
    ∧ (Step_record s dc').1 = py_call g (Call_value (trail parent) :: lits) kw.
Proof.
  intros Hlits. unfold Step_step. rewrite Step_init_eq.
  eexists _, _. split; [reflexivity|].
  unfold Step_record. cbn [target step_args step_kwargs].
  rewrite DataCache_record_eq, processed_args_no_Step.
  - by destruct (py_call g (Call_value (trail parent) :: lits) kw).
  - apply Forall_cons. split; [by destruct (trail parent) | done].
Qed.

(** X10. A [record] that raises, in the [get()] of a Step argument or in
    the target, appends nothing to [observed]; like every [record], it
    leaves the graph, the step registry and the files as they are. *)
Theorem DataCache_record_raises (dc dc' : DataCache) (f : function)
    (a : list value) (k : list (string * value)) (e : exn) :
  DataCache_record f a k dc = (Raise e, dc') →
  observed dc' = observed dc ∧ graph dc' = graph dc
  ∧ step_graph dc' = step_graph dc ∧ files dc' = files dc.
Proof.
  rewrite DataCache_record_eq.
  destruct (mapM processed_arg a dc) as [[ps|e'] dc1] eqn:Hl;
    apply processed_args_keeps in Hl as (Hg & Hs & Ho & Hf).
  - destruct (py_call f ps k); [done|]. by intros [= <- <-].
  - by intros [= <- <-].
Qed.

(** X11. When no recorded call had a Step among its positional
    arguments, [summary()] returns one line [name + str(args) + ' = ' +
    str(result)] per recorded call, in the order of the calls, joined by
    newlines; the keyword arguments do not appear. *)
Theorem DataCache_summary_literals_only (dc : DataCache) :
  Forall (λ o : observation, Forall (λ x, isinstance_Step x = None) o.1.1.2)
         (observed dc) →
  DataCache_summary dc = Ok (String.concat newline (map rendered_line (observed dc))).
Proof.
  intros Hall. unfold DataCache_summary.
  assert (mapM summary_line (observed dc) = Ok (map rendered_line (observed dc))) as ->;
    [|done].
  induction Hall as [|[[[name a] k] r] l Ho _ IH]; [done|].
  change (mapM ?f (?x :: ?l)) with (y ← f x; ys ← mapM f l; mret (y :: ys)).
  rewrite IH. simpl in Ho.
  assert (summary_line (name, a, k, r) = Ok (rendered_line (name, a, k, r))) as ->;
    [|done].
  unfold summary_line, rendered_line. simpl.
  assert (mapM (λ x, match isinstance_Step x with
                     | Some _ => Raise AttributeError
                     | None => Ok x
                     end) a = Ok a) as ->; [|done].
  clear -Ho. induction Ho as [|x a Hx _ IH]; simpl; [done|]. by rewrite Hx, IH.
Qed.

(** ** [previous], [hash] and [prepr], continued *)

Lemma Step_prepr_fuel_S (fuel : nat) (dc : DataCache) (self : Step) :
  Step_prepr_fuel (S fuel) dc self =
    rest ← mapM (Step_prepr_fuel fuel dc) (yields (Step_previous dc self));
    match raised (Step_previous dc self) with
    | Some e => Raise e
    | None => Ok (String.concat "<-" (prepr_head self :: rest))
    end.
Proof. done. Qed.

Lemma Step_prepr_fuel_stable (dc : DataCache) (n m : nat) (self : Step) :
  step_graph_wf dc →
  (value_depth (Call_value (trail self)) < n)%nat →
  (value_depth (Call_value (trail self)) < m)%nat →
  Step_prepr_fuel n dc self = Step_prepr_fuel m dc self.
Proof.
  intros Hwf. revert m self.
  induction n as [|n IH]; intros m self Hn Hm; [lia|].
  destruct m as [|m]; [lia|].
  rewrite !Step_prepr_fuel_S.
  rewrite (mapM_agree (Step_prepr_fuel n dc) (Step_prepr_fuel m dc)); [done|].
  apply Forall_forall. intros p Hp.
  pose proof (Step_previous_depth dc self p Hwf Hp).
  apply IH; lia.
Qed.

Lemma Step_prepr_fuel_enough (dc : DataCache) (n : nat) (self : Step) :
  step_graph_wf dc →
  (value_depth (Call_value (trail self)) < n)%nat →
  Step_prepr_fuel n dc self = Step_prepr dc self.
Proof.
  intros Hwf Hn. unfold Step_prepr. apply Step_prepr_fuel_stable; [done|done|lia].
Qed.

(** [Step.prepr] as the source states it. *)
Lemma Step_prepr_eq (dc : DataCache) (self : Step) :
  step_graph_wf dc →
  Step_prepr dc self =
    rest ← mapM (Step_prepr dc) (yields (Step_previous dc self));
    match raised (Step_previous dc self) with
    | Some e => Raise e
    | None => Ok (String.concat "<-" (prepr_head self :: rest))
    end.
Proof.
  intros Hwf. unfold Step_prepr at 1. rewrite Step_prepr_fuel_S.
  rewrite (mapM_agree (Step_prepr_fuel _ dc) (Step_prepr dc)); [done|].
  apply Forall_forall. intros p Hp.
  apply Step_prepr_fuel_enough; [done|]. by apply (Step_previous_depth dc).
Qed.

Lemma Step_previous_raised (dc : DataCache) (self : Step) (e : exn) :
  raised (Step_previous dc self) = Some e → e = KeyError ∨ e = ValueError.
Proof.
  unfold Step_previous. intros [->|He]%previous_args_raised; [by left|].
  simpl in He.
  destruct (previous_kwargs_keys (step_graph dc) (kwargs (trail self)))
    as [_ [Hr|Hr]]; rewrite Hr in He; simplify_eq. by right.
Qed.

Lemma Step_prepr_terminates (dc : DataCache) (self : Step) :
  step_graph_wf dc → Step_prepr dc self ≠ Raise RecursionError.
Proof.
  intros Hwf.
  assert (∀ n self, (value_depth (Call_value (trail self)) < n)%nat →
            Step_prepr_fuel n dc self ≠ Raise RecursionError) as Hgen.
  { clear self. induction n as [|n IH]; intros self Hn; [lia|].
    rewrite Step_prepr_fuel_S.
    destruct (mapM (Step_prepr_fuel n dc) (yields (Step_previous dc self)))
      as [rest|e] eqn:Hrest; simpl.
    - destruct (raised (Step_previous dc self)) as [e|] eqn:He; [|done].
      by apply Step_previous_raised in He as [-> | ->].
    - apply mapM_result_raises in Hrest as (p & Hp & Hraise).
      intros [= ->]. apply (IH p); [|done].
      pose proof (Step_previous_depth dc self p Hwf Hp). lia. }
  apply Hgen. lia.
Qed.

(** X12. In every cache that a program can build, the recursions of
    [hash()] and of [prepr()] end: they descend into the Trails nested in
    the Trail of the Step, because every Step is registered under its own
    Trail.  Any bound above the nesting depth gives the same result, and
    the bound is never what ends the recursion. *)
Theorem hash_prepr_recursion_ends (dc : DataCache) (steps : list Step)
    (self : Step) (n : nat) :
  reachable dc steps →
  (value_depth (Call_value (trail self)) < n)%nat →
  Step_hash_fuel n dc self = Step_hash dc self
  ∧ Step_hash dc self ≠ Raise RecursionError
  ∧ Step_prepr_fuel n dc self = Step_prepr dc self
  ∧ Step_prepr dc self ≠ Raise RecursionError.
Proof.
  intros Hwf%reachable_wf Hn. split_and!.
  - by apply Step_hash_fuel_enough.
  - by apply Step_hash_terminates.
  - by apply Step_prepr_fuel_enough.
  - by apply Step_prepr_terminates.
Qed.

Lemma previous_args_literals (sg : gmap Call Step) (l : list value)
    (rest : generator Step) :
  Forall (λ a, isinstance_Call a = None) l →
  previous_args sg l rest = rest.
Proof. induction 1 as [|a l Ha _ IH]; simpl; [done|]. by rewrite Ha. Qed.

(** X13. A Trail that is no key of the step registry: when the first
    Trail among the positional arguments of a Step is not registered,
    [previous()] raises [KeyError] before it yields anything, and so do
    [hash()] and [prepr()]. *)
Theorem previous_unregistered (dc : DataCache) (self : Step)
    (lits rest : list value) (c : Call) :
  args (trail self) = lits ++ Call_value c :: rest →
  Forall (λ a, isinstance_Call a = None) lits →
  step_graph dc !! c = None →
  Step_previous dc self = mkGenerator [] (Some KeyError)
  ∧ Step_hash dc self = Raise KeyError
  ∧ Step_prepr dc self = Raise KeyError.
Proof.
  intros Hargs Hlits Hc.
  assert (Step_previous dc self = mkGenerator [] (Some KeyError)) as Hprev.
  { unfold Step_previous. rewrite Hargs. clear Hargs.
    induction Hlits as [|a l Ha _ IH]; simpl.
    - by rewrite Call_eta, Hc.
    - by rewrite Ha. }
  split; [done|].
  assert (Step_has_deps self = true) as Hdeps.
  { unfold Step_has_deps. rewrite Hargs, existsb_app. simpl.
    by rewrite orb_true_r. }
  unfold Step_hash, Step_prepr.
  by rewrite Step_hash_fuel_S, Step_prepr_fuel_S, Hdeps, Hprev.
Qed.

Lemma previous_chained (dc : DataCache) (p s : Step) (lits : list value) :
  args (trail s) = Call_value (trail p) :: lits →
  Forall (λ a, isinstance_Call a = None) lits →
  kwargs (trail s) = [] →
  step_graph dc !! trail p = Some p →
  Step_previous dc s = mkGenerator [p] None ∧ Step_has_deps s = true.
Proof.
  intros Hargs Hlits Hkw Hp. split.
  - unfold Step_previous. rewrite Hargs, Hkw. simpl.
    by rewrite Call_eta, Hp, previous_args_literals.
  - unfold Step_has_deps. by rewrite Hargs.
Qed.

Lemma string_app_nil_r (s : string) : s +:+ "" = s.
Proof.
  induction s as [|c s IH]; [done|].
  change (String c s +:+ "") with (String c (s +:+ "")). by rewrite IH.
Qed.

(** X14. The hash of a chained Step is a chain: for a Step [s] whose
    first positional argument is the Trail of the registered Step [p],
    with literals as other arguments and no keyword arguments, [s.hash()]
    is [p.hash()] followed by the digest of the tuple of [s]; an
    exception of [p.hash()] is the exception of [s.hash()]. *)
Theorem hash_chained (dc : DataCache) (p s : Step) (lits : list value) :
  step_graph_wf dc →
  args (trail s) = Call_value (trail p) :: lits →
  Forall (λ a, isinstance_Call a = None) lits →
  kwargs (trail s) = [] →
  step_graph dc !! trail p = Some p →
  Step_hash dc s = h ← Step_hash dc p; Ok (h +:+ joblib_hash (uniquity s)).
Proof.
  intros Hwf Hargs Hlits Hkw Hp.
  destruct (previous_chained dc p s lits) as [Hprev Hdeps]; try done.
  rewrite (Step_hash_eq dc s), Hdeps, Hprev by done. simpl.
  by destruct (Step_hash dc p).
Qed.

(** X15. [prepr()] of a chained Step: with the hypotheses of X14,
    [s.prepr()] is the head of [s], the arrow [<-] and [p.prepr()]; when
    [s] has no other argument, its head is the function name followed by
    [( * )] without the spaces. *)
Theorem prepr_chained (dc : DataCache) (p s : Step) (lits : list value) :
  step_graph_wf dc →
  args (trail s) = Call_value (trail p) :: lits →
  Forall (λ a, isinstance_Call a = None) lits →
  kwargs (trail s) = [] →
  step_graph dc !! trail p = Some p →
  Step_prepr dc s = (r ← Step_prepr dc p; Ok (prepr_head s +:+ "<-" +:+ r))
  ∧ (lits = [] → prepr_head s = func (trail s) +:+ "(" +:+ "*" +:+ ")").
Proof.
  intros Hwf Hargs Hlits Hkw Hp.
  destruct (previous_chained dc p s lits) as [Hprev Hdeps]; try done.
  split.
  - rewrite (Step_prepr_eq dc s), Hprev by done. simpl.
    by destruct (Step_prepr dc p).
  - intros ->. unfold prepr_head. by rewrite Hargs, Hkw.
Qed.

Lemma unpack_pair_key (key : string) :
  String.length key ≠ 2 → unpack_pair (VStr key) = Raise ValueError.
Proof. destruct key as [|c1 [|c2 [|c3 key]]]; simpl; done. Qed.

Lemma previous_kwargs_bad_key (sg : gmap Call Step) (kvs : list (string * value)) :
  Exists (λ kv, String.length kv.1 ≠ 2) kvs →
  previous_kwargs sg (map (λ kv, VStr kv.1) kvs) = mkGenerator [] (Some ValueError).
Proof.
  induction kvs as [|[key v] kvs IH]; intros Hex; [by apply Exists_nil in Hex|].
  destruct (decide (String.length key = 2)) as [Hlen|Hlen].
  - apply Exists_cons in Hex as [Hbad|Hex]; [done|].
    destruct key as [|c1 [|c2 [|c3 key]]]; try done. simpl. by apply IH.
  - simpl. by rewrite unpack_pair_key.
Qed.

(** X16. Keyword arguments break [prepr()] but not [hash()]: for a Step
    whose positional and keyword values are all literals and one of whose
    keywords is not two characters long, [prepr()] raises [ValueError]
    (it always runs [previous()], which unpacks the keys), while [hash()]
    returns the digest of the tuple of the Step ([has_deps()] is false,
    so it does not run [previous()]). *)
Theorem prepr_keyword_raises (dc : DataCache) (self : Step) :
  Forall (λ a, isinstance_Call a = None) (args (trail self)) →
  Forall (λ kv, isinstance_Call kv.2 = None) (kwargs (trail self)) →
  Exists (λ kv, String.length kv.1 ≠ 2) (kwargs (trail self)) →
  Step_prepr dc self = Raise ValueError
  ∧ Step_hash dc self = Ok (joblib_hash (uniquity self)).
Proof.
  intros Hargs Hkw Hbad. split.
  - unfold Step_prepr. rewrite Step_prepr_fuel_S. unfold Step_previous.
    rewrite previous_args_literals by done. simpl.
    by rewrite previous_kwargs_bad_key.
  - assert (Step_has_deps self = false) as Hdeps.
    { unfold Step_has_deps. apply orb_false_intro.
      - clear -Hargs. induction Hargs as [|a l Ha _ IH]; simpl; [done|].
        unfold is_Call at 1. by rewrite Ha, IH.
      - clear -Hkw. induction Hkw as [|[k v] l Hv _ IH]; simpl in *; [done|].
        unfold is_Call at 1. by rewrite Hv, IH. }
    unfold Step_hash. by rewrite Step_hash_fuel_S, Hdeps.
Qed.

(** X17. The rendering of a Step without dependencies and without
    keyword arguments: [prepr()] is the function name followed by the
    [str] of the arguments, joined by [', '], in parentheses; and it is
    the bare function name when that joined string is empty, which is so
    without arguments and also for one argument whose [str] is empty. *)
Theorem prepr_literals (dc : DataCache) (self : Step) :
  Forall (λ a, isinstance_Call a = None) (args (trail self)) →
  kwargs (trail self) = [] →
  let rendered := String.concat ", " (map py_str (args (trail self))) in
  Step_prepr dc self =
    Ok (if bool_decide (rendered = "") then func (trail self)
        else func (trail self) +:+ "(" +:+ rendered +:+ ")").
Proof.
  intros Hargs Hkw rendered.
  unfold Step_prepr. rewrite Step_prepr_fuel_S. unfold Step_previous.
  rewrite previous_args_literals, Hkw by done. simpl.
  f_equal. unfold prepr_head. rewrite Hkw. simpl.
  assert (map (λ a, if is_Call a then "*" else py_str a) (args (trail self))
          = map py_str (args (trail self))) as ->.
  { clear -Hargs. induction Hargs as [|a l Ha _ IH]; simpl; [done|].
    unfold is_Call at 1. by rewrite Ha, IH. }
  fold rendered. case_bool_decide as Hr; simpl.
  - by rewrite Hr, !string_app_nil_r.
  - rewrite bool_decide_eq_true_2 by done. simpl.
    change ("" +:+ ")") with ")". done.
Qed.

(** X20. The guard of [hash()] loses nothing: when [has_deps()] is
    false, [previous()] yields no Step, in any cache. *)
Theorem has_deps_false_no_yields (dc : DataCache) (self : Step) :
  Step_has_deps self = false → yields (Step_previous dc self) = [].
Proof.
  intros Hdeps. unfold Step_has_deps in Hdeps.
  apply orb_false_elim in Hdeps as [Hargs _].
  unfold Step_previous.
  rewrite previous_args_literals.
  - simpl. by destruct (previous_kwargs_keys (step_graph dc) (kwargs (trail self))).
  - clear -Hargs. induction (args (trail self)) as [|a l IH]; [constructor|].
    simpl in Hargs. apply orb_false_elim in Hargs as [Ha Hl].
    constructor; [|by apply IH].
    unfold is_Call in Ha. apply bool_decide_eq_false in Ha.
    destruct (isinstance_Call a); [|done]. exfalso. by apply Ha.
Qed.

(** ** Invalidation *)

Lemma Step_hash_no_deps (dc : DataCache) (self : Step) :
  Step_has_deps self = false → Step_hash dc self = Ok (joblib_hash (uniquity self)).
Proof. intros Hdeps. unfold Step_hash. by rewrite Step_hash_fuel_S, Hdeps. Qed.

Lemma uniquity_code (s s' : Step) :
  uniquity s = uniquity s' →
  co_code (target s) = co_code (target s')
  ∧ co_consts (target s) = co_consts (target s').
Proof.
  unfold uniquity. intros Heq.
  assert (VBytes (co_code (target s)) = VBytes (co_code (target s'))
          ∧ VTuple (map const_value (co_consts (target s)))
            = VTuple (map const_value (co_consts (target s')))) as [Hc Hk].
  { by injection Heq as _ _ _ _ _ -> ->. }
  injection Hc as ->. by injection Hk as ->%map_const_value_inj.
Qed.

(** X18. A changed implementation invalidates a checkpoint.  Let the
    hash file of a Trail hold the hash of a Step [s] without
    dependencies, and let [s'] be a Step without dependencies whose
    target has another bytecode or other constants.  As far as
    [joblib.hash] tells its inputs apart, [s'.checkpoint()] recomputes:
    it runs [recompute()] and [get()] and overwrites the artifact and the
    hash. *)
Theorem checkpoint_code_changed (dc dc1 dc2 : DataCache) (s s' : Step) (result : value) :
  Inj (=) (=) joblib_hash →
  Step_has_deps s = false → Step_has_deps s' = false →
  (co_code (target s), co_consts (target s))
    ≠ (co_code (target s'), co_consts (target s')) →
  DataCache_load_hash dc (Call_value (trail s')) = Ok (Some (joblib_hash (uniquity s))) →
  Step_recompute s' dc = (Ok (), dc1) →
  Step_get s' dc1 = (Ok result, dc2) →
  Step_checkpoint s' false dc
  = (Ok s', checkpointed dc s' (joblib_hash (uniquity s')) result).
Proof.
  intros Hinj Hdeps Hdeps' Hcode Hstored Hre Hget.
  apply (Step_checkpoint_stale dc dc1 dc2 s' false _
           (Some (joblib_hash (uniquity s)))); try done.
  - by apply Step_hash_no_deps.
  - left. intros [= Heq%Hinj]. apply Hcode.
    by destruct (uniquity_code s s' Heq) as [-> ->].
Qed.

Lemma Step_checkpoint_Ok_hash (dc dc1 : DataCache) (self : Step) (recompute : bool) :
  Step_checkpoint self recompute dc = (Ok self, dc1) →
  ∃ h, Step_hash dc self = Ok h
    ∧ files dc1 !! hash_file dc self = Some (Text h)
    ∧ directory dc1 = directory dc.
Proof.
  intros Hcp. unfold Step_checkpoint, mbind, M_bind in Hcp.
  destruct (Step_hash dc self) as [h|e] eqn:Hhash; [|done].
  destruct (DataCache_load_hash dc (Call_value (trail self))) as [stored|e] eqn:Hstored;
    [|done].
  exists h. split; [done|].
  destruct (bool_decide (Some h ≠ stored) || recompute) eqn:Hstale.
  - unfold Step_recompute, modify, Step_get in Hcp.
    destruct (dask_get (S (size (graph (log (Recomputed (trail self))
                (set_graph <[trail self := Task_apply_with_kwargs (target self)
                   (step_args self) (dict_keys (step_kwargs self))]> dc)))))
              (log (Recomputed (trail self))
                (set_graph <[trail self := Task_apply_with_kwargs (target self)
                   (step_args self) (dict_keys (step_kwargs self))]> dc))
              (trail self)) as [result|e]; [|done].
    injection Hcp as <-. split; [|done]. apply lookup_insert_eq.
  - injection Hcp as <-. split; [|done].
    apply orb_false_elim in Hstale as [Hstale _].
    apply bool_decide_eq_false in Hstale.
    assert (stored = Some h) as ->.
    { destruct (decide (stored = Some h)); [done|]. exfalso. apply Hstale. congruence. }
    unfold DataCache_load_hash in Hstored. unfold hash_file. simpl.
    destruct (files dc !! _) as [[]|]; by simplify_eq.
Qed.

(** X19. A checkpoint survives the process.  Let a first process
    construct [cache.step(f, *a, **k)], without Trails among the
    arguments, and checkpoint it; let a second process open a cache on
    the same directory with the files that the first one left, and issue
    the same call.  Then [checkpoint()] in the second process performs no
    [recompute()], [get()], [store] or [store_hash]: it leaves the files
    as they are and installs the load entry. *)
Theorem checkpoint_new_process (dir : string) (fs : gmap string file)
    (f : function) (a : list value) (k : list (string * value))
    (s1 : Step) (dc1 dc2 : DataCache) (recompute : bool) :
  Forall (λ x, isinstance_Call x = None) a →
  Forall (λ kv, isinstance_Call kv.2 = None) (hashabledict k) →
  DataCache_step f a k (DataCache_init dir fs) = (Ok s1, dc1) →
  Step_checkpoint s1 recompute dc1 = (Ok s1, dc2) →
  ∃ (s2 : Step) (dc3 dc4 : DataCache),
    DataCache_step f a k (DataCache_init dir (files dc2)) = (Ok s2, dc3)
    ∧ Step_checkpoint s2 false dc3 = (Ok s2, dc4)
    ∧ files dc4 = files dc2
    ∧ journal dc4 = journal dc3
    ∧ graph dc4 !! trail s2 = Some (cached_task s2).
Proof.
  intros Ha Hk Hstep Hcp.
  unfold DataCache_step in *. rewrite Step_init_eq in *.
  injection Hstep as <- <-.
  apply Step_checkpoint_Ok_hash in Hcp as (h & Hhash & Hfile & Hdir).
  set (s := mkStep 0 (mkCall (f_name f) a (hashabledict k)) f a k) in *.
  assert (Step_has_deps s = false) as Hdeps.
  { unfold Step_has_deps. apply orb_false_intro; cbn [s trail args kwargs].
    - clear -Ha. induction Ha as [|x l Hx _ IH]; simpl; [done|].
      unfold is_Call at 1. by rewrite Hx, IH.
    - clear -Hk. induction Hk as [|[key v] l Hv _ IH]; simpl in *; [done|].
      unfold is_Call at 1. by rewrite Hv, IH. }
  rewrite Step_hash_no_deps in Hhash by done. injection Hhash as <-.
  eexists _, _, _. split; [reflexivity|].
  cbn [next_sid DataCache_init]. fold s.
  rewrite (Step_checkpoint_fresh _ s (joblib_hash (uniquity s))).
  - split; [reflexivity|]. split_and!; [done | done | apply lookup_insert_eq].
  - by apply Step_hash_no_deps.
  - unfold DataCache_load_hash. cbn [directory files DataCache_init].
    unfold hash_file in Hfile. cbn [directory DataCache_init] in Hfile.
    by rewrite Hfile.
Qed.

End further.

(** * The pipeline, evaluated *)

#[global] Existing Instance example_runtime.

Example DataCache_step_sq : DataCache_step square [VInt 3] [] dc0 = (Ok sq, dc_sq).
Proof. reflexivity. Qed.

Example Step_step_inc : Step_step sq addOne [] [] dc_sq = (Ok inc, dc_inc).
Proof. reflexivity. Qed.

Example Step_get_inc : (Step_get inc dc_inc).1 = Ok (VInt 10).
Proof. vm_compute. reflexivity. Qed.

Example Step_hash_inc :
  Step_hash dc_inc inc =
    Ok (joblib_hash (uniquity sq) +:+ joblib_hash (uniquity inc)).
Proof. vm_compute. reflexivity. Qed.


Lemma Step_checkpoint_inc : Step_checkpoint inc false dc_inc = (Ok inc, dc_chk).
Proof.
  apply (Step_checkpoint_stale dc_inc (Step_recompute inc dc_inc).2
           (Step_get inc (Step_recompute inc dc_inc).2).2 inc false hash_inc None).
  - vm_compute. reflexivity.
  - vm_compute. reflexivity.
  - left. discriminate.
  - reflexivity.
  - unfold Step_get. cbn [snd].
    match goal with
    | |- (?g, _) = _ => assert (g = Ok (VInt 10)) as -> by (vm_compute; reflexivity)
    end.
    reflexivity.
Defined.

(** The second [inc.checkpoint()] changes nothing. *)
Lemma Step_checkpoint_twice_witness :
  Step_checkpoint inc false dc_inc = (Ok inc, dc_chk)
  ∧ Step_checkpoint inc false dc_chk = (Ok inc, dc_chk).
Proof.
  pose proof Step_checkpoint_inc as Hfirst.
  split; [exact Hfirst|].
  destruct (Step_checkpoint_twice dc_inc dc_chk inc Hfirst)
    as (h & stored & _ & _ & _ & _ & _ & _ & _ & Hsecond).
  exact Hsecond.
Defined.

(** After the checkpoint, [get()] loads the stored value. *)
Example Step_get_after_checkpoint : (Step_get inc dc_chk).1 = Ok (VInt 10).
Proof. vm_compute. reflexivity. Qed.


Lemma reachable_dc_inc : reachable dc_inc [inc; sq].
Proof.
  apply (reach_Step_step dc_sq [sq] sq addOne [] [] inc dc_inc).
  - apply (reach_DataCache_step dc0 [] square [VInt 3] [] sq dc_sq).
    + apply (reach_init "./dc" ∅).
    + reflexivity.
  - apply elem_of_cons. by left.
  - reflexivity.
Defined.

(** The two maps of the pipeline have the same keys. *)
Lemma graph_step_graph_same_keys_witness :
  reachable dc_inc [inc; sq] ∧ dom (graph dc_inc) = dom (step_graph dc_inc).
Proof.
  split; [exact reachable_dc_inc|].
  exact (proj2 (proj2 (proj2 graph_step_graph_same_keys)) dc_inc [inc; sq]
           reachable_dc_inc).
Defined.


(** The first Step now computes the cube. *)
Example Step_get_after_collision :
  (Step_get sq (DataCache_step square' [VInt 3] [] dc_sq).2).1 = Ok (VInt 27).
Proof. vm_compute. reflexivity. Qed.

(** [cache.record(probe, sq, 1, k=sq)]: the positional Step arrives as
    its value 9, the keyword Step as the Step object. *)
Lemma DataCache_record_positional_witness :
  Forall2 (resolved dc_sq) [Step_value sq; VInt 1] [VInt 9; VInt 1]
  ∧ py_call probe [VInt 9; VInt 1] [("k", Step_value sq)]
    = Ok (VTuple [VTuple [VInt 9; VInt 1]; VDict [("k", Step_value sq)]])
  ∧ ∃ dc', DataCache_record probe [Step_value sq; VInt 1] [("k", Step_value sq)] dc_sq
           = (Ok (VTuple [VTuple [VInt 9; VInt 1]; VDict [("k", Step_value sq)]]), dc')
      ∧ observed dc' = observed dc_sq ++
          [(f_name probe, [Step_value sq; VInt 1], [("k", Step_value sq)],
            VTuple [VTuple [VInt 9; VInt 1]; VDict [("k", Step_value sq)]])]
      ∧ graph dc' = graph dc_sq ∧ step_graph dc' = step_graph dc_sq
      ∧ files dc' = files dc_sq.
Proof.
  assert (Forall2 (resolved dc_sq) [Step_value sq; VInt 1] [VInt 9; VInt 1]) as Hargs.
  { constructor; [vm_compute; reflexivity|].
    constructor; [reflexivity | constructor]. }
  split; [exact Hargs|]. split; [reflexivity|].
  exact (DataCache_record_positional dc_sq probe [Step_value sq; VInt 1]
           [VInt 9; VInt 1] [("k", Step_value sq)] _ Hargs eq_refl).
Defined.

(** C6 fails for keyword arguments: [sq.get()] is 9, and
    [cache.record(probe, k=sq)] calls [probe] with the Step object as
    [k], not with 9. *)
Lemma DataCache_record_keyword_Step_unresolved :
  (Step_get sq dc_sq).1 = Ok (VInt 9)
  ∧ (DataCache_record probe [] [("k", Step_value sq)] dc_sq).1
    = Ok (VTuple [VTuple []; VDict [("k", Step_value sq)]])
  ∧ (DataCache_record probe [] [("k", Step_value sq)] dc_sq).1
    ≠ Ok (VTuple [VTuple []; VDict [("k", VInt 9)]]).
Proof.
  split_and!; vm_compute; [reflexivity | reflexivity | discriminate].
Qed.

Example DataCache_record_sq :
  (DataCache_record square [Step_value sq] [] dc_sq).1 = Ok (VInt 81).
Proof. vm_compute. reflexivity. Qed.

(** [summary()] after [cache.record(square, sq)] raises. *)
Lemma DataCache_summary_Step_raises_witness :
  Exists (λ o : observation, Exists (λ x, is_Some (isinstance_Step x)) o.1.1.2)
         (observed dc_rec)
  ∧ DataCache_summary dc_rec = Raise AttributeError.
Proof.
  assert (Exists (λ o : observation, Exists (λ x, is_Some (isinstance_Step x)) o.1.1.2)
            (observed dc_rec)) as Hex.
  { apply Exists_cons_hd, Exists_cons_hd. by eexists. }
  exact (conj Hex (DataCache_summary_Step_raises dc_rec Hex)).
Defined.

(** Without Steps among the arguments, [summary()] renders the log in
    the order of the calls. *)
Example DataCache_summary_literals :
  DataCache_summary
    (DataCache_record addOne [VInt 4] []
       (DataCache_record square [VInt 4] [] dc0).2).2
  = Ok ("square(4) = 16" +:+ newline +:+ "addOne(4) = 5").
Proof. vm_compute. reflexivity. Qed.

(** [hashabledict] does not depend on the order of the keywords. *)
Example hashabledict_order :
  hashabledict [("a", VInt 1); ("b", VInt 2)] = hashabledict [("b", VInt 2); ("a", VInt 1)].
Proof. reflexivity. Qed.

(** The same pipeline over another implementation of [square]: the hash
    of the downstream Step [inc] is another one. *)

Example Step_hash_follows_positional_dependency :
  let dc_sq2 := (DataCache_step square_v2 [VInt 3] [] dc0).2 in
  let dc_inc2 := (Step_step sq addOne [] [] dc_sq2).2 in
  trail (mkStep 0 (mkCall "square" [VInt 3] []) square_v2 [VInt 3] []) = trail sq
  ∧ step_graph dc_inc2 !! trail inc = Some inc
  ∧ Step_hash dc_inc2 inc ≠ Step_hash dc_inc inc.
Proof. split_and!; [reflexivity | vm_compute; reflexivity | vm_compute; discriminate]. Qed.

(** ** The further properties at the pipeline *)

Lemma checkpoint_get_round_trip_witness :
  store_file dc_inc inc ≠ hash_file dc_inc inc
  ∧ ∃ dc3, Step_checkpoint inc false dc_inc = (Ok inc, dc3)
      ∧ (Step_get inc dc3).1 = Ok (VInt 10).
Proof.
  assert (store_file dc_inc inc ≠ hash_file dc_inc inc) as Hfiles.
  { apply (bool_decide_unpack _). vm_compute. exact I. }
  split; [exact Hfiles|].
  refine (checkpoint_get_round_trip dc_inc (Step_recompute inc dc_inc).2
            (Step_get inc (Step_recompute inc dc_inc).2).2 inc false hash_inc None
            (VInt 10) _ _ _ _ _ Hfiles).
  - vm_compute. reflexivity.
  - vm_compute. reflexivity.
  - left. discriminate.
  - reflexivity.
  - unfold Step_get. cbn [snd].
    match goal with
    | |- (?g, _) = _ => assert (g = Ok (VInt 10)) as -> by (vm_compute; reflexivity)
    end.
    reflexivity.
Defined.

Lemma checkpoint_get_raises_witness :
  Step_hash dc_kw kw = Ok (joblib_hash (uniquity kw))
  ∧ ∃ dc3, Step_checkpoint kw false dc_kw = (Raise ValueError, dc3)
      ∧ files dc3 = files dc_kw
      ∧ graph dc3 = <[trail kw := fresh_task kw]> (graph dc_kw)
      ∧ step_graph dc3 = step_graph dc_kw
      ∧ DataCache_load_hash dc3 (Call_value (trail kw)) = Ok None.
Proof.
  assert (Step_hash dc_kw kw = Ok (joblib_hash (uniquity kw))) as Hhash
    by (vm_compute; reflexivity).
  split; [exact Hhash|].
  refine (checkpoint_get_raises dc_kw (Step_recompute kw dc_kw).2
            (Step_get kw (Step_recompute kw dc_kw).2).2 kw false _ None ValueError
            Hhash _ _ _ _).
  - vm_compute. reflexivity.
  - left. discriminate.
  - reflexivity.
  - unfold Step_get. cbn [snd].
    match goal with
    | |- (?g, _) = _ => assert (g = Raise ValueError) as -> by (vm_compute; reflexivity)
    end.
    reflexivity.
Defined.


Lemma recompute_undoes_checkpoint_witness :
  graph (Step_recompute inc dc_chk).2 = graph (Step_recompute inc dc_inc).2
  ∧ graph (Step_recompute inc dc_chk).2 !! trail inc = Some (fresh_task inc)
  ∧ graph (Step_recompute inc (Step_recompute inc dc_inc).2).2
    = graph (Step_recompute inc dc_inc).2.
Proof.
  exact (recompute_undoes_checkpoint dc_inc dc_chk inc false Step_checkpoint_inc).
Defined.


Lemma get_chained_witness :
  (Step_get sq dc_inc).1 = Ok (VInt 9)
  ∧ (Step_get inc dc_inc).1 = py_call addOne [VInt 9] [].
Proof.
  assert ((Step_get sq dc_inc).1 = Ok (VInt 9)) as Hsq by (vm_compute; reflexivity).
  split; [exact Hsq|].
  refine (get_chained dc_inc sq inc [] (VInt 9) _ _ _ _ Hsq).
  - vm_compute. reflexivity.
  - reflexivity.
  - constructor.
  - reflexivity.
Defined.

Lemma apply_with_kwargs_items_witness :
  NoDup [("x", VInt 1); ("y", VInt 2)].*1
  ∧ apply_with_kwargs probe [VInt 0] [VTuple [VStr "x"; VInt 1]; VTuple [VStr "y"; VInt 2]]
    = py_call probe [VInt 0] [("x", VInt 1); ("y", VInt 2)].
Proof.
  assert (NoDup [("x", VInt 1); ("y", VInt 2)].*1) as Hnodup.
  { apply (bool_decide_unpack _). vm_compute. exact I. }
  exact (conj Hnodup
    (apply_with_kwargs_items probe [VInt 0] [("x", VInt 1); ("y", VInt 2)] Hnodup)).
Defined.

Lemma Step_record_chained_witness :
  Forall (λ a, isinstance_Step a = None) [VInt 5]
  ∧ ∃ (s : Step) (dc' : DataCache),
      Step_step sq probe [VInt 5] [] dc_sq = (Ok s, dc')
      ∧ (Step_record s dc').1 = py_call probe [Call_value (trail sq); VInt 5] [].
Proof.
  assert (Forall (λ a, isinstance_Step a = None) [VInt 5]) as Hlits.
  { constructor; [reflexivity | constructor]. }
  exact (conj Hlits (Step_record_chained dc_sq sq probe [VInt 5] [] Hlits)).
Defined.

Lemma DataCache_record_raises_witness :
  DataCache_record square [VStr "a"] [] dc0
  = (Raise TypeError, (DataCache_record square [VStr "a"] [] dc0).2)
  ∧ observed (DataCache_record square [VStr "a"] [] dc0).2 = observed dc0.
Proof.
  assert (DataCache_record square [VStr "a"] [] dc0
          = (Raise TypeError, (DataCache_record square [VStr "a"] [] dc0).2)) as Hr
    by reflexivity.
  split; [exact Hr|].
  exact (proj1 (DataCache_record_raises dc0 _ square [VStr "a"] [] TypeError Hr)).
Defined.

Lemma DataCache_summary_literals_only_witness :
  Forall (λ o : observation, Forall (λ x, isinstance_Step x = None) o.1.1.2)
         (observed dc_rec4)
  ∧ DataCache_summary dc_rec4
    = Ok (String.concat newline (map rendered_line (observed dc_rec4))).
Proof.
  assert (Forall (λ o : observation, Forall (λ x, isinstance_Step x = None) o.1.1.2)
            (observed dc_rec4)) as Hall.
  { constructor; [|constructor]. constructor; [reflexivity | constructor]. }
  exact (conj Hall (DataCache_summary_literals_only dc_rec4 Hall)).
Defined.

Lemma hash_prepr_recursion_ends_witness :
  reachable dc_inc [inc; sq]
  ∧ (value_depth (Call_value (trail inc)) < 5)%nat
  ∧ Step_hash_fuel 5 dc_inc inc = Step_hash dc_inc inc
  ∧ Step_hash dc_inc inc ≠ Raise RecursionError
  ∧ Step_prepr_fuel 5 dc_inc inc = Step_prepr dc_inc inc
  ∧ Step_prepr dc_inc inc ≠ Raise RecursionError.
Proof.
  assert (value_depth (Call_value (trail inc)) < 5)%nat as Hdepth by (vm_compute; lia).
  split; [exact reachable_dc_inc|]. split; [exact Hdepth|].
  exact (hash_prepr_recursion_ends dc_inc [inc; sq] inc 5 reachable_dc_inc Hdepth).
Defined.

Lemma previous_unregistered_witness :
  step_graph dc_sq !! mkCall "nowhere" [] [] = None
  ∧ Step_previous dc_sq orphan = mkGenerator [] (Some KeyError)
  ∧ Step_hash dc_sq orphan = Raise KeyError
  ∧ Step_prepr dc_sq orphan = Raise KeyError.
Proof.
  assert (step_graph dc_sq !! mkCall "nowhere" [] [] = None) as Hnone
    by (vm_compute; reflexivity).
  split; [exact Hnone|].
  refine (previous_unregistered dc_sq orphan [VInt 0] [] (mkCall "nowhere" [] [])
            eq_refl _ Hnone).
  constructor; [reflexivity | constructor].
Defined.

Lemma step_graph_wf_dc_inc : step_graph_wf dc_inc.
Proof. exact (reachable_wf dc_inc [inc; sq] reachable_dc_inc). Defined.

Lemma hash_chained_witness :
  step_graph dc_inc !! trail sq = Some sq
  ∧ Step_hash dc_inc inc
    = (h ← Step_hash dc_inc sq; Ok (h +:+ joblib_hash (uniquity inc))).
Proof.
  assert (step_graph dc_inc !! trail sq = Some sq) as Hsq by (vm_compute; reflexivity).
  split; [exact Hsq|].
  refine (hash_chained dc_inc sq inc [] step_graph_wf_dc_inc eq_refl _ eq_refl Hsq).
  constructor.
Defined.

Lemma prepr_chained_witness :
  step_graph dc_inc !! trail sq = Some sq
  ∧ Step_prepr dc_inc inc
    = (r ← Step_prepr dc_inc sq; Ok (prepr_head inc +:+ "<-" +:+ r))
  ∧ (@nil value = [] → prepr_head inc = func (trail inc) +:+ "(" +:+ "*" +:+ ")").
Proof.
  assert (step_graph dc_inc !! trail sq = Some sq) as Hsq by (vm_compute; reflexivity).
  split; [exact Hsq|].
  refine (prepr_chained dc_inc sq inc [] step_graph_wf_dc_inc eq_refl _ eq_refl Hsq).
  constructor.
Defined.

(** The rendering of the pipeline. *)
Example Step_prepr_inc : Step_prepr dc_inc inc = Ok "addOne(*)<-square(3)".
Proof. vm_compute. reflexivity. Qed.

Lemma prepr_keyword_raises_witness :
  Exists (λ kv : string * value, String.length kv.1 ≠ 2) (kwargs (trail kw))
  ∧ Step_prepr dc_kw kw = Raise ValueError
  ∧ Step_hash dc_kw kw = Ok (joblib_hash (uniquity kw)).
Proof.
  assert (Exists (λ kv : string * value, String.length kv.1 ≠ 2) (kwargs (trail kw)))
    as Hbad.
  { apply Exists_cons_hd. simpl. lia. }
  split; [exact Hbad|].
  refine (prepr_keyword_raises dc_kw kw _ _ Hbad).
  - constructor.
  - constructor; [reflexivity | constructor].
Defined.

Lemma prepr_literals_witness :
  Forall (λ a, isinstance_Call a = None) (args (trail sq))
  ∧ Step_prepr dc_sq sq =
      Ok (if bool_decide (String.concat ", " (map py_str (args (trail sq))) = "")
          then func (trail sq)
          else func (trail sq) +:+ "(" +:+
               String.concat ", " (map py_str (args (trail sq))) +:+ ")").
Proof.
  assert (Forall (λ a, isinstance_Call a = None) (args (trail sq))) as Hargs.
  { constructor; [reflexivity | constructor]. }
  exact (conj Hargs (prepr_literals dc_sq sq Hargs eq_refl)).
Defined.

Lemma has_deps_false_no_yields_witness :
  Step_has_deps kw = false ∧ yields (Step_previous dc_kw kw) = [].
Proof.
  exact (conj eq_refl (has_deps_false_no_yields dc_kw kw eq_refl)).
Defined.

Lemma Step_previous_positional_witness :
  kwargs (trail inc) = []
  ∧ Step_previous dc_inc inc =
      mkGenerator
        (omap (λ a, match isinstance_Call a with
                    | Some c => step_graph dc_inc !! c
                    | None => None
                    end) (args (trail inc)))
        None.
Proof.
  split; [reflexivity|].
  refine (Step_previous_positional dc_inc inc eq_refl _).
  constructor; [|constructor].
  intros c [= <-]. exists sq. vm_compute. reflexivity.
Defined.

Lemma checkpoint_new_process_witness :
  ∃ (s2 : Step) (dc3 dc4 : DataCache),
    DataCache_step square [VInt 3] []
      (DataCache_init "./dc" (files (Step_checkpoint sq false dc_sq).2)) = (Ok s2, dc3)
    ∧ Step_checkpoint s2 false dc3 = (Ok s2, dc4)
    ∧ files dc4 = files (Step_checkpoint sq false dc_sq).2
    ∧ journal dc4 = journal dc3
    ∧ graph dc4 !! trail s2 = Some (cached_task s2).
Proof.
  refine (checkpoint_new_process "./dc" ∅ square [VInt 3] [] sq dc_sq
            (Step_checkpoint sq false dc_sq).2 false _ _ eq_refl _).
  - constructor; [reflexivity | constructor].
  - constructor.
  - assert ((Step_checkpoint sq false dc_sq).1 = Ok sq) as Hok
      by (vm_compute; reflexivity).
    destruct (Step_checkpoint sq false dc_sq) as [r dc']. simpl in Hok. by subst r.
Defined.

Lemma numeral_hash_inj : Inj (=) (=) (@joblib_hash numeral_runtime).
Proof.
  intros x y Heq. simpl in Heq. apply (inj pretty) in Heq. by apply (inj encode) in Heq.
Qed.

Lemma step_graph_wf_dc0 : step_graph_wf dc0.
Proof.
  intros c p Hc. change (step_graph dc0) with (∅ : gmap Call Step) in Hc.
  by rewrite lookup_empty in Hc.
Defined.

Lemma Step_hash_code_witness :
  (co_code (target sq), co_consts (target sq))
    ≠ (co_code (target sq_v2), co_consts (target sq_v2))
  ∧ @Step_hash numeral_runtime dc0 sq ≠ @Step_hash numeral_runtime dc0 sq_v2.
Proof.
  assert ((co_code (target sq), co_consts (target sq))
            ≠ (co_code (target sq_v2), co_consts (target sq_v2))) as Hcode
    by discriminate.
  split; [exact Hcode|].
  exact (@Step_hash_code numeral_runtime dc0 dc0 sq sq_v2 numeral_hash_inj
           step_graph_wf_dc0 step_graph_wf_dc0 eq_refl eq_refl Hcode).
Defined.

Lemma checkpoint_code_changed_witness :
  @DataCache_load_hash numeral_runtime dc_changed (Call_value (trail sq_v2))
    = Ok (Some (@joblib_hash numeral_runtime (uniquity sq)))
  ∧ @Step_checkpoint numeral_runtime sq_v2 false dc_changed
    = (Ok sq_v2,
       @checkpointed numeral_runtime dc_changed sq_v2
         (@joblib_hash numeral_runtime (uniquity sq_v2)) (VInt 9)).
Proof.
  assert (@DataCache_load_hash numeral_runtime dc_changed (Call_value (trail sq_v2))
            = Ok (Some (@joblib_hash numeral_runtime (uniquity sq)))) as Hstored.
  { unfold DataCache_load_hash, dc_changed, hash_file.
    cbn [directory files set_files]. by rewrite lookup_insert_eq. }
  split; [exact Hstored|].
  refine (@checkpoint_code_changed numeral_runtime dc_changed
            (@Step_recompute sq_v2 dc_changed).2
            (@Step_get numeral_runtime sq_v2 (@Step_recompute sq_v2 dc_changed).2).2
            sq sq_v2 (VInt 9) numeral_hash_inj eq_refl eq_refl _ Hstored eq_refl _).
  - discriminate.
  - pose proof (@Step_get_literal numeral_runtime
                  (@Step_recompute sq_v2 dc_changed).2 sq_v2) as Hget.
    unfold Step_get in *. cbn [fst snd] in *. rewrite Hget.
    + reflexivity.
    + unfold Step_recompute, modify. cbn [snd graph log set_graph].
      apply lookup_insert_eq.
    + constructor; [reflexivity | constructor].
    + reflexivity.
Defined.

Lemma reachable_dc_inc_v2 : reachable dc_inc_v2 [inc; sq_v2].
Proof.
  apply (reach_Step_step dc_sq_v2 [sq_v2] sq_v2 addOne [] [] inc dc_inc_v2).
  - apply (reach_DataCache_step dc0 [] square_v2 [VInt 3] [] sq_v2 dc_sq_v2).
    + apply (reach_init "./dc" ∅).
    + reflexivity.
  - apply elem_of_cons. by left.
  - reflexivity.
Defined.

Lemma Step_hash_downstream_witness :
  Step_hash dc_inc sq = Ok (joblib_hash (uniquity sq))
  ∧ Step_hash dc_inc_v2 sq_v2 = Ok (joblib_hash (uniquity sq_v2))
  ∧ joblib_hash (uniquity sq) ≠ joblib_hash (uniquity sq_v2)
  ∧ Step_hash dc_inc inc ≠ Step_hash dc_inc_v2 inc.
Proof.
  assert (Step_hash dc_inc sq = Ok (joblib_hash (uniquity sq))) as Hh
    by (vm_compute; reflexivity).
  assert (Step_hash dc_inc_v2 sq_v2 = Ok (joblib_hash (uniquity sq_v2))) as Hh'
    by (vm_compute; reflexivity).
  assert (joblib_hash (uniquity sq) ≠ joblib_hash (uniquity sq_v2)) as Hne.
  { apply (bool_decide_unpack _). vm_compute. exact I. }
  split; [exact Hh|]. split; [exact Hh'|]. split; [exact Hne|].
  refine (Step_hash_downstream dc_inc dc_inc_v2 inc inc sq sq_v2 _ _
            step_graph_wf_dc_inc (reachable_wf _ _ reachable_dc_inc_v2)
            eq_refl eq_refl _ _ eq_refl Hh Hh' Hne).
  - vm_compute. reflexivity.
  - vm_compute. reflexivity.
Defined.
